(** * The "Create order" page controller (create-order-page.js)

    A shallow embedding of [CreateOrderPage]: the static address validator,
    the listeners the constructor registers on the page container and on the
    event bus, and the debounce timer the three search inputs share. *)

From Stdlib Require Import String List ZArith Bool Lia Permutation.
Import ListNotations.
Local Open Scope string_scope.
Local Open Scope list_scope.

(** ** JavaScript values *)

(** The values that reach this file: primitives, and references to objects
    whose contents the controller never inspects (collaborator instances,
    shipping and cart-rule blocks, product rows). Numbers are the integers
    plus [NaN]. *)
Inductive value : Type :=
| VUndefined
| VNull
| VBool (b : bool)
| VNum (n : Z)
| VNaN
| VStr (s : string)
| VRef (r : nat).

(** [ToBoolean]: what [if (v)] tests. *)
Definition truthy (v : value) : bool :=
  match v with
  | VUndefined | VNull | VNaN => false
  | VBool b => b
  | VNum n => negb (n =? 0)%Z
  | VStr EmptyString => false
  | VStr (String _ _) => true
  | VRef _ => true
  end.

(** ** Address records *)

(** The two properties of an address record that the controller reads. *)
Record address : Type := { delivery : value; invoice : value }.

(** Both flags are JavaScript booleans. *)
Definition boolean_flags (a : address) : Prop :=
  (exists b, delivery a = VBool b) /\ (exists b, invoice a = VBool b).

(** One turn of the [for (const key in addresses)] loop on the two locals
    [deliveryValid] and [invoiceValid]. *)
Definition validate_step (locals : bool * bool) (address : address)
  : bool * bool :=
  let '(deliveryValid, invoiceValid) := locals in
  let deliveryValid := if truthy (delivery address) then true else deliveryValid in
  let invoiceValid := if truthy (invoice address) then true else invoiceValid in
  (deliveryValid, invoiceValid).

(** [static validateSelectedAddresses(addresses)]: the array is visited in
    index order, starting from [false, false]. *)
Definition validateSelectedAddresses (addresses : list address) : bool :=
  let '(deliveryValid, invoiceValid) :=
    fold_left validate_step addresses (false, false) in
  deliveryValid && invoiceValid.

(** The contract of the validator in the words of the specification: some
    record is truthy on delivery and some record is truthy on invoice. *)
Definition has_delivery (addresses : list address) : Prop :=
  exists a, In a addresses /\ truthy (delivery a) = true.
Definition has_invoice (addresses : list address) : Prop :=
  exists a, In a addresses /\ truthy (invoice a) = true.

(** ** Event payloads *)

(** The cart info snapshot the event bus hands to the cart listeners. *)
Record cartInfo : Type := {
  cartId : value;
  addresses : list address;
  shipping : value;
  products : list value;
  cartRules : value;
  currencyId : value;
  langId : value
}.

(** The failed request handed to the [cartCurrencyChangeFailed] listener,
    read as [response.responseJSON.message]. *)
Record responseBody : Type := { message : value }.
Record response : Type := { responseJSON : responseBody }.

(** The keys of [create-order-map.js] this file uses. The selectors
    themselves live outside this file; a key stands for the elements its
    selector matches. *)
Module createOrderMap.
Inductive selector : Type :=
| orderCreationContainer | customerSearchInput | chooseCustomerBtn
| useCartBtn | useOrderBtn | productSearch | cartRuleSearchInput
| foundCartRuleListItem | cartRuleDeleteBtn | deliveryOptionSelect
| freeShippingSwitch | addToCartButton | cartCurrencySelect
| cartLanguageSelect | sendProcessOrderEmailBtn
| listedProductUnitPriceInput | listedProductQtyInput | addressSelect
| productRemoveBtn | cartBlock | deliveryAddressSelect
| invoiceAddressSelect.

Definition selector_eq_dec (a b : selector) : {a = b} + {a <> b}.
Proof. decide equality. Defined.
End createOrderMap.

(** The keys of [event-map.js] this file subscribes to. *)
Module eventMap.
Inductive name : Type :=
| cartLoaded | cartAddressesChanged | cartDeliveryOptionChanged
| cartFreeShippingSet | cartCurrencyChanged | cartCurrencyChangeFailed
| cartLanguageChanged.

Definition name_eq_dec (a b : name) : {a = b} + {a <> b}.
Proof. decide equality. Defined.
End eventMap.

(** What the bus delivers under each name. *)
Definition payload_of (n : eventMap.name) : Type :=
  match n with
  | eventMap.cartCurrencyChangeFailed => response
  | _ => cartInfo
  end.

(** ** DOM events *)

(** A DOM node, by identity. *)
Definition element : Type := nat.

(** The jQuery event a delegated listener receives: [matched] is the key
    of the selector its [currentTarget] matched. *)
Record dom_event : Type := {
  type : string;
  matched : createOrderMap.selector;
  currentTarget : element;
  defaultPrevented : bool
}.

Definition preventDefault (e : dom_event) : dom_event :=
  {| type := type e; matched := matched e;
     currentTarget := currentTarget e; defaultPrevented := true |}.

(** ** Calls on collaborators *)

(** The three data attributes that identify a listed product. *)
Record productRef : Type := {
  productId : value; attributeId : value; customizationId : value
}.

(** The object literal of [_changeCartAddresses]. *)
Record addressIds : Type := {
  deliveryAddressId : value; invoiceAddressId : value
}.

(** Every call this file makes on an imported class, named by the
    property of [this] that holds the receiver. *)
Inductive call : Type :=
| construct (class : string)
| customerManager_search (phrase : value)
| customerManager_selectCustomer (event : dom_event)
| customerManager_loadCustomerCarts (cart : value)
| customerManager_loadCustomerOrders
| cartProvider_loadEmptyCart (customer : value)
| cartProvider_getCart (cart : value)
| cartProvider_duplicateOrderCart (order : value)
| cartRuleManager_search (phrase : value)
| cartRuleManager_stopSearching
| cartRuleManager_addCartRuleToCart (rule cart : value)
| cartRuleManager_removeCartRuleFromCart (rule cart : value)
| productManager_search (phrase : value)
| productManager_addProductToCart (cart : value)
| productManager_removeProductFromCart (cart : value) (p : productRef)
| productManager_changeProductPrice (cart customer : value)
    (p : productRef) (price : value)
| productManager_changeProductQty (cart : value) (p : productRef)
    (newQty : value)
| cartEditor_changeDeliveryOption (cart v : value)
| cartEditor_setFreeShipping (cart v : value)
| cartEditor_changeCartCurrency (cart v : value)
| cartEditor_changeCartLanguage (cart v : value)
| cartEditor_changeCartAddresses (cart : value) (ids : addressIds)
| summaryManager_sendProcessOrderEmail (cart : value)
| addressesRenderer_render (l : list address)
| shippingRenderer_render (shipping : value) (emptyCart : bool)
| cartRulesRenderer_renderCartRulesBlock (rules : value) (emptyCart : bool)
| productRenderer_renderList (l : list value)
| productRenderer_cleanCartBlockAlerts
| productRenderer_renderCartBlockErrorAlert (message : value)
| summaryRenderer_render (c : cartInfo).

(** ** The page and the collaborators *)

(** jQuery, the DOM and the imported classes are outside this file. The
    controller sees them through these operations; nothing is assumed of
    them except that an input holds the text the user typed into it. *)
Class Environment : Type := {
  dom : Type;
  (** [$(selector).val()] and [$(selector).val(v)] *)
  jq_val : createOrderMap.selector -> dom -> value;
  jq_set_val : createOrderMap.selector -> value -> dom -> dom;
  jq_removeClass : createOrderMap.selector -> string -> dom -> dom;
  jq_blur : createOrderMap.selector -> dom -> dom;
  (** [$(el).val()], [el.value] and [$(el).data(key)] on one node *)
  elem_val : element -> dom -> value;
  elem_data : element -> string -> dom -> value;
  (** the browser stores typed text before it fires [input] *)
  user_types : element -> string -> dom -> dom;
  elem_val_user_types :
    forall el s d, elem_val el (user_types el s d) = VStr s;
  (** what a collaborator does to the page when called, and what
      [selectCustomer] returns *)
  collaborator : call -> dom -> dom;
  selectCustomer_result : dom_event -> dom -> value
}.

(** A small page for examples: every node and selector holds one value,
    collaborators leave the page alone. *)
Record sample_dom : Type := {
  node_val : element -> value;
  sel_val : createOrderMap.selector -> value
}.

#[global, refine] Instance sample_environment : Environment := {|
  dom := sample_dom;
  jq_val s d := sel_val d s;
  jq_set_val s v d :=
    {| node_val := node_val d;
       sel_val s' := if createOrderMap.selector_eq_dec s s' then v
                     else sel_val d s' |};
  jq_removeClass _ _ d := d;
  jq_blur _ d := d;
  elem_val el d := node_val d el;
  elem_data el _ d := VNum (Z.of_nat el);
  user_types el s d :=
    {| node_val el' := if Nat.eqb el el' then VStr s else node_val d el';
       sel_val := sel_val d |};
  collaborator _ d := d;
  selectCustomer_result e _ := VNum (Z.of_nat (currentTarget e))
|}.
Proof. intros el s d; simpl. now rewrite Nat.eqb_refl. Defined.

Definition sample_page : sample_dom :=
  {| node_val _ := VStr EmptyString; sel_val _ := VNum 7 |}.

Section Controller.
Context {env : Environment}.

(** ** The state *)

(** The arrow functions handed to [setTimeout], with what each closes
    over: the customer search keeps the event and reads the input when it
    runs; the other two keep the phrase read at the keystroke. *)
Inductive closure : Type :=
| customer_search_later (event : dom_event)
| cartRule_search_later (searchPhrase : value)
| product_search_later (searchPhrase : value).

Record timer : Type := { timer_id : Z; due : Z; callback : closure }.

(** The arrow functions bound on [this.$container]. *)
Inductive dom_listener : Type :=
| input_customerSearchInput | click_chooseCustomerBtn | click_useCartBtn
| click_useOrderBtn | input_productSearch | input_cartRuleSearchInput
| blur_cartRuleSearchInput | mousedown_foundCartRuleListItem
| click_foundCartRuleListItem | click_cartRuleDeleteBtn
| change_deliveryOptionSelect | change_freeShippingSwitch
| click_addToCartButton | change_cartCurrencySelect
| change_cartLanguageSelect | click_sendProcessOrderEmailBtn
| change_listedProductUnitPriceInput | change_listedProductQtyInput
| change_addressSelect | click_productRemoveBtn.

(** The arrow functions subscribed on the event bus, by event name. *)
Inductive bus_listener : eventMap.name -> Type :=
| on_cartLoaded : bus_listener eventMap.cartLoaded
| on_cartAddressesChanged : bus_listener eventMap.cartAddressesChanged
| on_cartDeliveryOptionChanged :
    bus_listener eventMap.cartDeliveryOptionChanged
| on_cartFreeShippingSet : bus_listener eventMap.cartFreeShippingSet
| on_cartLanguageChanged : bus_listener eventMap.cartLanguageChanged
| on_cartCurrencyChanged : bus_listener eventMap.cartCurrencyChanged
| on_cartCurrencyChangeFailed :
    bus_listener eventMap.cartCurrencyChangeFailed.

Definition subscription : Type := { n : eventMap.name & bus_listener n }.

Definition delegation : Type :=
  (string * createOrderMap.selector * dom_listener)%type.

(** The controller object and what surrounds it. [this] maps a property
    name to its value, [VUndefined] when the property was never
    assigned; [assigned] lists the assignments to properties of [this],
    latest first; [calls] lists the collaborator calls with the time of
    each, latest first; [timers] lists the pending timers, oldest
    first. *)
Record world : Type := {
  this : string -> value;
  assigned : list string;
  page : dom;
  timers : list timer;
  next_timer : Z;
  now : Z;
  calls : list (Z * call);
  next_ref : nat;
  container_listeners : list delegation;
  bus_listeners : list subscription
}.

Definition with_this (f : string -> value) (a : list string) (w : world) :=
  {| this := f; assigned := a; page := page w; timers := timers w;
     next_timer := next_timer w; now := now w; calls := calls w;
     next_ref := next_ref w; container_listeners := container_listeners w;
     bus_listeners := bus_listeners w |}.

Definition with_page (d : dom) (w : world) :=
  {| this := this w; assigned := assigned w; page := d; timers := timers w;
     next_timer := next_timer w; now := now w; calls := calls w;
     next_ref := next_ref w; container_listeners := container_listeners w;
     bus_listeners := bus_listeners w |}.

Definition with_timers (ts : list timer) (n : Z) (w : world) :=
  {| this := this w; assigned := assigned w; page := page w; timers := ts;
     next_timer := n; now := now w; calls := calls w;
     next_ref := next_ref w; container_listeners := container_listeners w;
     bus_listeners := bus_listeners w |}.

Definition with_now (t : Z) (w : world) :=
  {| this := this w; assigned := assigned w; page := page w;
     timers := timers w; next_timer := next_timer w; now := t;
     calls := calls w; next_ref := next_ref w;
     container_listeners := container_listeners w;
     bus_listeners := bus_listeners w |}.

Definition with_calls (cs : list (Z * call)) (d : dom) (w : world) :=
  {| this := this w; assigned := assigned w; page := d; timers := timers w;
     next_timer := next_timer w; now := now w; calls := cs;
     next_ref := next_ref w; container_listeners := container_listeners w;
     bus_listeners := bus_listeners w |}.

Definition with_next_ref (r : nat) (w : world) :=
  {| this := this w; assigned := assigned w; page := page w;
     timers := timers w; next_timer := next_timer w; now := now w;
     calls := calls w; next_ref := r;
     container_listeners := container_listeners w;
     bus_listeners := bus_listeners w |}.

Definition with_listeners (ds : list delegation) (ss : list subscription)
  (w : world) :=
  {| this := this w; assigned := assigned w; page := page w;
     timers := timers w; next_timer := next_timer w; now := now w;
     calls := calls w; next_ref := next_ref w; container_listeners := ds;
     bus_listeners := ss |}.

(** ** Listener bodies as state transformers *)

(** A function body run on its argument object [P] and the world: both
    are threaded, so an assignment to either would show. *)
Definition M (P A : Type) : Type := P -> world -> A * P * world.

Definition ret {P A} (a : A) : M P A := fun p w => (a, p, w).

Definition bind {P A B} (m : M P A) (k : A -> M P B) : M P B :=
  fun p w => let '(a, p', w') := m p w in k a p' w'.

Notation "x <- m ;; k" := (bind m (fun x => k))
  (at level 61, m at next level, right associativity).
Notation "m ;; k" := (bind m (fun _ => k))
  (at level 61, right associativity).

Definition arg {P} : M P P := fun p w => (p, p, w).
Definition set_arg {P} (p' : P) : M P unit := fun _ w => (tt, p', w).
Definition gets {P A} (f : world -> A) : M P A := fun p w => (f w, p, w).
Definition modify {P} (f : world -> world) : M P unit :=
  fun p w => (tt, p, f w).

(** [this.name] and [this.name = v]. *)
Definition get_this {P} (name : string) : M P value :=
  gets (fun w => this w name).

Definition set_this {P} (name : string) (v : value) : M P unit :=
  modify (fun w =>
    with_this (fun k => if String.eqb name k then v else this w k)
              (name :: assigned w) w).

(** A collaborator method runs: the call is recorded with the time, and
    the collaborator does to the page what it does. *)
Definition invoke {P} (c : call) : M P unit :=
  modify (fun w =>
    with_calls ((now w, c) :: calls w) (collaborator c (page w)) w).

(** [new Class()]: a fresh object. *)
Definition new {P} (class : string) : M P value :=
  r <- gets next_ref ;;
  modify (with_next_ref (S r)) ;;
  invoke (construct class) ;;
  ret (VRef r).

(** [$(selector)], kept only as an object reference. *)
Definition jq {P} (s : createOrderMap.selector) : M P value :=
  r <- gets next_ref ;;
  modify (with_next_ref (S r)) ;;
  ret (VRef r).

Definition val_of {P} (s : createOrderMap.selector) : M P value :=
  gets (fun w => jq_val s (page w)).
Definition set_val {P} (s : createOrderMap.selector) (v : value)
  : M P unit :=
  modify (fun w => with_page (jq_set_val s v (page w)) w).
Definition removeClass {P} (s : createOrderMap.selector) (c : string)
  : M P unit :=
  modify (fun w => with_page (jq_removeClass s c (page w)) w).
Definition blur {P} (s : createOrderMap.selector) : M P unit :=
  modify (fun w => with_page (jq_blur s (page w)) w).
Definition target_val {P} (el : element) : M P value :=
  gets (fun w => elem_val el (page w)).
Definition target_data {P} (el : element) (key : string) : M P value :=
  gets (fun w => elem_data el key (page w)).

(** ** Timers *)

(** [setTimeout(callback, delay)]: a fresh handle, returned as a number. *)
Definition setTimeout {P} (callback : closure) (delay : Z) : M P value :=
  fun p w =>
    let id := next_timer w in
    (VNum id, p,
     with_timers
       (timers w ++
        [{| timer_id := id; due := now w + delay; callback := callback |}])
       (id + 1) w).

(** [clearTimeout(handle)]: drops the timer with that handle; a handle
    that is not a number, or names no pending timer, clears nothing. *)
Definition cleared (handle : value) (ts : list timer) : list timer :=
  match handle with
  | VNum id => filter (fun tm => negb (timer_id tm =? id)%Z) ts
  | _ => ts
  end.

Definition clearTimeout {P} (handle : value) : M P unit :=
  modify (fun w =>
    with_timers (cleared handle (timers w)) (next_timer w) w).

(** [object.name], read off the argument object as it is now. *)
Definition prop {P A} (f : P -> A) : M P A := fun p w => (f p, p, w).

(** ** The methods of [CreateOrderPage] *)

(** [array.length === 0] *)
Definition is_empty {A} (l : list A) : bool := (length l =? 0)%nat.

Definition _preselectCartCurrency {P} (currencyId : value) : M P unit :=
  set_val createOrderMap.cartCurrencySelect currencyId.

Definition _preselectCartLanguage {P} (langId : value) : M P unit :=
  set_val createOrderMap.cartLanguageSelect langId.

Definition _changeCartAddresses {P} : M P unit :=
  d <- val_of createOrderMap.deliveryAddressSelect ;;
  i <- val_of createOrderMap.invoiceAddressSelect ;;
  let addresses := {| deliveryAddressId := d; invoiceAddressId := i |} in
  cart <- get_this "cartId" ;;
  invoke (cartEditor_changeCartAddresses cart addresses).

Definition _renderCartInfo : M cartInfo unit :=
  a <- prop addresses ;;
  invoke (addressesRenderer_render a) ;;
  r <- prop cartRules ;;
  ps <- prop products ;;
  invoke (cartRulesRenderer_renderCartRulesBlock r (is_empty ps)) ;;
  s <- prop shipping ;;
  ps <- prop products ;;
  invoke (shippingRenderer_render s (is_empty ps)) ;;
  ps <- prop products ;;
  invoke (productRenderer_renderList ps) ;;
  cartInfo <- arg ;;
  invoke (summaryRenderer_render cartInfo) ;;
  c <- prop currencyId ;;
  _preselectCartCurrency c ;;
  l <- prop langId ;;
  _preselectCartLanguage l ;;
  removeClass createOrderMap.cartBlock "d-none".

Definition _initCustomerSearch : M dom_event unit :=
  handle <- get_this "timeoutId" ;;
  clearTimeout handle ;;
  event <- arg ;;
  handle <- setTimeout (customer_search_later event) 300 ;;
  set_this "timeoutId" handle.

Definition _initCustomerSelect : M dom_event unit :=
  event <- arg ;;
  customerId <- gets (fun w => selectCustomer_result event (page w)) ;;
  invoke (customerManager_selectCustomer event) ;;
  set_this "customerId" customerId ;;
  invoke (cartProvider_loadEmptyCart customerId).

Definition _initCartSelect : M dom_event unit :=
  el <- prop currentTarget ;;
  cartId <- target_data el "cart-id" ;;
  invoke (cartProvider_getCart cartId).

Definition _initDuplicateOrderCart : M dom_event unit :=
  el <- prop currentTarget ;;
  orderId <- target_data el "order-id" ;;
  invoke (cartProvider_duplicateOrderCart orderId).

Definition _initCartRuleSearch : M dom_event unit :=
  el <- prop currentTarget ;;
  searchPhrase <- target_val el ;;
  handle <- get_this "timeoutId" ;;
  clearTimeout handle ;;
  handle <- setTimeout (cartRule_search_later searchPhrase) 300 ;;
  set_this "timeoutId" handle.

Definition _initProductSearch : M dom_event unit :=
  el <- prop currentTarget ;;
  searchPhrase <- target_val el ;;
  handle <- get_this "timeoutId" ;;
  clearTimeout handle ;;
  handle <- setTimeout (product_search_later searchPhrase) 300 ;;
  set_this "timeoutId" handle.

(** The object literal the three product methods start with. *)
Definition listed_product : M dom_event productRef :=
  el <- prop currentTarget ;;
  p <- target_data el "product-id" ;;
  a <- target_data el "attribute-id" ;;
  c <- target_data el "customization-id" ;;
  ret {| productId := p; attributeId := a; customizationId := c |}.

Definition _initProductRemoveFromCart : M dom_event unit :=
  product <- listed_product ;;
  cart <- get_this "cartId" ;;
  invoke (productManager_removeProductFromCart cart product).

Definition _initProductChangePrice : M dom_event unit :=
  product <- listed_product ;;
  el <- prop currentTarget ;;
  price <- target_val el ;;
  cart <- get_this "cartId" ;;
  customer <- get_this "customerId" ;;
  invoke (productManager_changeProductPrice cart customer product price).

Definition _initProductChangeQty : M dom_event unit :=
  product <- listed_product ;;
  el <- prop currentTarget ;;
  newQty <- target_val el ;;
  cart <- get_this "cartId" ;;
  invoke (productManager_changeProductQty cart product newQty).

(** A [change] listener that passes [this.cartId] and
    [e.currentTarget.value] to a cart editor method. *)
Definition edit_cart (method : value -> value -> call) : M dom_event unit :=
  cart <- get_this "cartId" ;;
  el <- prop currentTarget ;;
  v <- target_val el ;;
  invoke (method cart v).

(** The body of each arrow function bound on the container. *)
Definition run_dom_listener (l : dom_listener) : M dom_event unit :=
  match l with
  | input_customerSearchInput => _initCustomerSearch
  | click_chooseCustomerBtn => _initCustomerSelect
  | click_useCartBtn => _initCartSelect
  | click_useOrderBtn => _initDuplicateOrderCart
  | input_productSearch => _initProductSearch
  | input_cartRuleSearchInput => _initCartRuleSearch
  | blur_cartRuleSearchInput => invoke cartRuleManager_stopSearching
  | mousedown_foundCartRuleListItem =>
      event <- arg ;;
      set_arg (preventDefault event) ;;
      el <- prop currentTarget ;;
      cartRuleId <- target_data el "cart-rule-id" ;;
      cart <- get_this "cartId" ;;
      invoke (cartRuleManager_addCartRuleToCart cartRuleId cart)
  | click_foundCartRuleListItem => blur createOrderMap.cartRuleSearchInput
  | click_cartRuleDeleteBtn =>
      el <- prop currentTarget ;;
      cartRuleId <- target_data el "cart-rule-id" ;;
      cart <- get_this "cartId" ;;
      invoke (cartRuleManager_removeCartRuleFromCart cartRuleId cart)
  | change_deliveryOptionSelect => edit_cart cartEditor_changeDeliveryOption
  | change_freeShippingSwitch => edit_cart cartEditor_setFreeShipping
  | click_addToCartButton =>
      cart <- get_this "cartId" ;;
      invoke (productManager_addProductToCart cart)
  | change_cartCurrencySelect => edit_cart cartEditor_changeCartCurrency
  | change_cartLanguageSelect => edit_cart cartEditor_changeCartLanguage
  | click_sendProcessOrderEmailBtn =>
      cart <- get_this "cartId" ;;
      invoke (summaryManager_sendProcessOrderEmail cart)
  | change_listedProductUnitPriceInput => _initProductChangePrice
  | change_listedProductQtyInput => _initProductChangeQty
  | change_addressSelect => _changeCartAddresses
  | click_productRemoveBtn => _initProductRemoveFromCart
  end.

(** The body of each arrow function subscribed on the bus. *)
Definition run_bus_listener {n} (l : bus_listener n)
  : M (payload_of n) unit :=
  match l in bus_listener n return M (payload_of n) unit with
  | on_cartLoaded =>
      id <- prop cartId ;;
      set_this "cartId" id ;;
      _renderCartInfo ;;
      a <- prop addresses ;;
      a' <- prop addresses ;;
      (if negb (is_empty a) && negb (validateSelectedAddresses a')
       then _changeCartAddresses else ret tt) ;;
      cart <- get_this "cartId" ;;
      invoke (customerManager_loadCustomerCarts cart) ;;
      invoke customerManager_loadCustomerOrders
  | on_cartAddressesChanged =>
      a <- prop addresses ;;
      invoke (addressesRenderer_render a) ;;
      s <- prop shipping ;;
      ps <- prop products ;;
      invoke (shippingRenderer_render s (is_empty ps)) ;;
      cartInfo <- arg ;;
      invoke (summaryRenderer_render cartInfo)
  | on_cartDeliveryOptionChanged =>
      s <- prop shipping ;;
      ps <- prop products ;;
      invoke (shippingRenderer_render s (is_empty ps)) ;;
      cartInfo <- arg ;;
      invoke (summaryRenderer_render cartInfo)
  | on_cartFreeShippingSet =>
      r <- prop cartRules ;;
      ps <- prop products ;;
      invoke (cartRulesRenderer_renderCartRulesBlock r (is_empty ps)) ;;
      s <- prop shipping ;;
      ps <- prop products ;;
      invoke (shippingRenderer_render s (is_empty ps)) ;;
      cartInfo <- arg ;;
      invoke (summaryRenderer_render cartInfo)
  | on_cartLanguageChanged =>
      l <- prop langId ;;
      _preselectCartLanguage l
  | on_cartCurrencyChanged =>
      invoke productRenderer_cleanCartBlockAlerts ;;
      c <- prop currencyId ;;
      _preselectCartCurrency c
  | on_cartCurrencyChangeFailed =>
      m <- prop (fun response => message (responseJSON response)) ;;
      invoke (productRenderer_renderCartBlockErrorAlert m)
  end.

(** The body of each arrow function handed to [setTimeout]. *)
Definition run_closure (c : closure) : M unit unit :=
  match c with
  | customer_search_later event =>
      phrase <- target_val (currentTarget event) ;;
      invoke (customerManager_search phrase)
  | cartRule_search_later searchPhrase =>
      invoke (cartRuleManager_search searchPhrase)
  | product_search_later searchPhrase =>
      invoke (productManager_search searchPhrase)
  end.

(** ** Registration *)

(** [this.$container.on(type, selector, listener)] *)
Definition container_on {P} (ty : string) (s : createOrderMap.selector)
  (l : dom_listener) : M P unit :=
  modify (fun w =>
    with_listeners (container_listeners w ++ [(ty, s, l)])
                   (bus_listeners w) w).

(** [EventEmitter.on(name, listener)] *)
Definition EventEmitter_on {P} (n : eventMap.name) (l : bus_listener n)
  : M P unit :=
  modify (fun w =>
    with_listeners (container_listeners w)
                   (bus_listeners w ++ [existT _ n l]) w).

Definition _onCartLoaded {P} : M P unit :=
  EventEmitter_on eventMap.cartLoaded on_cartLoaded.
Definition _onCartAddressesChanged {P} : M P unit :=
  EventEmitter_on eventMap.cartAddressesChanged on_cartAddressesChanged.
Definition _onDeliveryOptionChanged {P} : M P unit :=
  EventEmitter_on eventMap.cartDeliveryOptionChanged
    on_cartDeliveryOptionChanged.
Definition _onFreeShippingChanged {P} : M P unit :=
  EventEmitter_on eventMap.cartFreeShippingSet on_cartFreeShippingSet.
Definition _onCartLanguageChanged {P} : M P unit :=
  EventEmitter_on eventMap.cartLanguageChanged on_cartLanguageChanged.
Definition _onCartCurrencyChanged {P} : M P unit :=
  EventEmitter_on eventMap.cartCurrencyChanged on_cartCurrencyChanged ;;
  EventEmitter_on eventMap.cartCurrencyChangeFailed
    on_cartCurrencyChangeFailed.

Definition _addCartRuleToCart {P} : M P unit :=
  container_on "mousedown" createOrderMap.foundCartRuleListItem
    mousedown_foundCartRuleListItem ;;
  container_on "click" createOrderMap.foundCartRuleListItem
    click_foundCartRuleListItem.

Definition _removeCartRuleFromCart {P} : M P unit :=
  container_on "click" createOrderMap.cartRuleDeleteBtn
    click_cartRuleDeleteBtn.

Definition _listenForCartEdit {P} : M P unit :=
  _onCartAddressesChanged ;;
  _onDeliveryOptionChanged ;;
  _onFreeShippingChanged ;;
  _addCartRuleToCart ;;
  _removeCartRuleFromCart ;;
  _onCartCurrencyChanged ;;
  _onCartLanguageChanged ;;
  container_on "change" createOrderMap.deliveryOptionSelect
    change_deliveryOptionSelect ;;
  container_on "change" createOrderMap.freeShippingSwitch
    change_freeShippingSwitch ;;
  container_on "click" createOrderMap.addToCartButton
    click_addToCartButton ;;
  container_on "change" createOrderMap.cartCurrencySelect
    change_cartCurrencySelect ;;
  container_on "change" createOrderMap.cartLanguageSelect
    change_cartLanguageSelect ;;
  container_on "click" createOrderMap.sendProcessOrderEmailBtn
    click_sendProcessOrderEmailBtn ;;
  container_on "change" createOrderMap.listedProductUnitPriceInput
    change_listedProductUnitPriceInput ;;
  container_on "change" createOrderMap.listedProductQtyInput
    change_listedProductQtyInput ;;
  container_on "change" createOrderMap.addressSelect
    change_addressSelect ;;
  container_on "click" createOrderMap.productRemoveBtn
    click_productRemoveBtn.

Definition _initListeners {P} : M P unit :=
  container_on "input" createOrderMap.customerSearchInput
    input_customerSearchInput ;;
  container_on "click" createOrderMap.chooseCustomerBtn
    click_chooseCustomerBtn ;;
  container_on "click" createOrderMap.useCartBtn click_useCartBtn ;;
  container_on "click" createOrderMap.useOrderBtn click_useOrderBtn ;;
  container_on "input" createOrderMap.productSearch input_productSearch ;;
  container_on "input" createOrderMap.cartRuleSearchInput
    input_cartRuleSearchInput ;;
  container_on "blur" createOrderMap.cartRuleSearchInput
    blur_cartRuleSearchInput ;;
  _listenForCartEdit ;;
  _onCartLoaded.

(** The collaborator properties with the class each is built from, in the
    order of the constructor. *)
Definition collaborators : list (string * string) :=
  [ ("cartProvider", "CartProvider");
    ("customerManager", "CustomerManager");
    ("shippingRenderer", "ShippingRenderer");
    ("addressesRenderer", "AddressesRenderer");
    ("cartRulesRenderer", "CartRulesRenderer");
    ("router", "Router");
    ("cartEditor", "CartEditor");
    ("cartRuleManager", "CartRuleManager");
    ("productManager", "ProductManager");
    ("productRenderer", "ProductRenderer");
    ("summaryRenderer", "SummaryRenderer");
    ("summaryManager", "SummaryManager") ].

(** [this.name = new Class()] *)
Definition build {P} (name class : string) : M P unit :=
  o <- new class ;;
  set_this name o.

Definition constructor : M unit unit :=
  set_this "cartId" VNull ;;
  set_this "customerId" VNull ;;
  c <- jq createOrderMap.orderCreationContainer ;;
  set_this "$container" c ;;
  build "cartProvider" "CartProvider" ;;
  build "customerManager" "CustomerManager" ;;
  build "shippingRenderer" "ShippingRenderer" ;;
  build "addressesRenderer" "AddressesRenderer" ;;
  build "cartRulesRenderer" "CartRulesRenderer" ;;
  build "router" "Router" ;;
  build "cartEditor" "CartEditor" ;;
  build "cartRuleManager" "CartRuleManager" ;;
  build "productManager" "ProductManager" ;;
  build "productRenderer" "ProductRenderer" ;;
  build "summaryRenderer" "SummaryRenderer" ;;
  build "summaryManager" "SummaryManager" ;;
  _initListeners.

(** ** The page at run time *)

(** Nothing built yet, at time 0, on a given page. *)
Definition blank (d : dom) : world :=
  {| this := fun _ => VUndefined; assigned := []; page := d; timers := [];
     next_timer := 1; now := 0; calls := []; next_ref := 0;
     container_listeners := []; bus_listeners := [] |}.

(** [new CreateOrderPage()] on a given page. *)
Definition created (d : dom) : world := snd (constructor tt (blank d)).

(** The bus publishes [n] with payload [p]: every listener subscribed
    under [n] runs on that one object, in subscription order. The object
    as the listeners leave it is returned with the world. *)
Definition deliver (n : eventMap.name) (s : subscription)
  (pw : payload_of n * world) : payload_of n * world :=
  let '(p, w) := pw in
  let '(existT _ n' l) := s in
  match eventMap.name_eq_dec n' n with
  | left e =>
      let '(_, p', w') :=
        run_bus_listener (eq_rect n' bus_listener l n e) p w in
      (p', w')
  | right _ => (p, w)
  end.

Definition emit (n : eventMap.name) (p : payload_of n) (w : world)
  : payload_of n * world :=
  fold_left (fun pw s => deliver n s pw) (bus_listeners w) (p, w).

(** A DOM event reaches the container: every listener bound for its type
    and matched selector runs on that one event object, in binding
    order. *)
Definition handles (e : dom_event) (d : delegation) : bool :=
  let '(ty, s, _) := d in
  String.eqb ty (type e)
  && (if createOrderMap.selector_eq_dec s (matched e) then true else false).

Definition trigger (e : dom_event) (w : world) : dom_event * world :=
  fold_left
    (fun ew d =>
       let '(e, w) := ew in
       if handles e d then
         let '(_, e', w') := run_dom_listener (snd d) e w in (e', w')
       else (e, w))
    (container_listeners w) (e, w).

(** The pending timer that runs next: least due time, oldest first. *)
Fixpoint earliest (ts : list timer) : option timer :=
  match ts with
  | [] => None
  | tm :: ts' =>
      match earliest ts' with
      | Some tm' => if (due tm' <? due tm)%Z then Some tm' else Some tm
      | None => Some tm
      end
  end.

Definition next_due (t : Z) (ts : list timer) : option timer :=
  match earliest ts with
  | Some tm => if (due tm <=? t)%Z then Some tm else None
  | None => None
  end.

(** A timer runs: it leaves the pending set, the clock stands at its due
    time, its closure runs. *)
Definition fire (tm : timer) (w : world) : world :=
  let pending :=
    filter (fun x => negb (timer_id x =? timer_id tm)%Z) (timers w) in
  let w' :=
    with_now (Z.max (now w) (due tm))
             (with_timers pending (next_timer w) w) in
  snd (run_closure (callback tm) tt w').

Fixpoint run_timers (fuel : nat) (t : Z) (w : world) : world :=
  match fuel with
  | O => w
  | S fuel' =>
      match next_due t (timers w) with
      | Some tm => run_timers fuel' t (fire tm w)
      | None => w
      end
  end.

(** Time passes until [t]: the timers due by then run in order. No
    closure of this file sets a timer, so one round per pending timer is
    enough. *)
Definition advance (t : Z) (w : world) : world :=
  let w' := run_timers (length (timers w)) t w in
  with_now (Z.max (now w') t) w'.

(** At time [t] the user types [text] into the input [el] that matches
    [s]: the browser stores the text and fires [input]. *)
Definition keystroke (t : Z) (s : createOrderMap.selector) (el : element)
  (text : string) (w : world) : world :=
  let w' := advance t w in
  let e := {| type := "input"; matched := s; currentTarget := el;
              defaultPrevented := false |} in
  snd (trigger e (with_page (user_types el text (page w')) w')).

(** ** Invariants and footprints *)

(** At most the timer whose handle [this.timeoutId] holds is pending. *)
Definition one_timer (w : world) : Prop :=
  forall tm, In tm (timers w) ->
    this w "timeoutId" = VNum (timer_id tm) /\ timers w = [tm].

(** The listeners are those the constructor registered. *)
Definition wired (w : world) : Prop :=
  container_listeners w = container_listeners (created (page w)) /\
  bus_listeners w = bus_listeners (created (page w)).

(** Whatever is pending is due after [t]. *)
Definition pending_after (t : Z) (w : world) : Prop :=
  forall tm, In tm (timers w) -> (t < due tm)%Z.

(** The properties of [this] a listener may assign. *)
Definition state_fields : list string :=
  ["cartId"; "customerId"; "timeoutId"].

(** From [w] to [w'] only properties among [state_fields] were assigned,
    and every other property of [this] kept its value. *)
Definition footprint (w w' : world) : Prop :=
  (exists names, assigned w' = names ++ assigned w /\
                 incl names state_fields) /\
  forall name, ~ In name state_fields -> this w' name = this w name.

(** The page once [_renderCartInfo] has run on it, and the renderer calls
    it makes, in order. *)
Definition render_calls (c : cartInfo) : list call :=
  [ addressesRenderer_render (addresses c);
    cartRulesRenderer_renderCartRulesBlock (cartRules c)
      (is_empty (products c));
    shippingRenderer_render (shipping c) (is_empty (products c));
    productRenderer_renderList (products c);
    summaryRenderer_render c ].

Definition rendered_page (c : cartInfo) (d : dom) : dom :=
  jq_removeClass createOrderMap.cartBlock "d-none"
    (jq_set_val createOrderMap.cartLanguageSelect (langId c)
       (jq_set_val createOrderMap.cartCurrencySelect (currencyId c)
          (fold_left (fun d call => collaborator call d)
                     (render_calls c) d))).

(** The address change [_changeCartAddresses] asks for on a page. *)
Definition address_change (cart : value) (d : dom) : call :=
  cartEditor_changeCartAddresses cart
    {| deliveryAddressId := jq_val createOrderMap.deliveryAddressSelect d;
       invoiceAddressId := jq_val createOrderMap.invoiceAddressSelect d |}.

Definition is_address_change (c : call) : bool :=
  match c with cartEditor_changeCartAddresses _ _ => true | _ => false end.

(** Calls made in this order at one time, as the log holds them. *)
Definition at_time (t : Z) (cs : list call) : list (Z * call) :=
  rev (map (fun c => (t, c)) cs).

(** The search call a debounced input ends in. *)
Definition search_call (s : createOrderMap.selector) (phrase : value)
  : option call :=
  match s with
  | createOrderMap.customerSearchInput => Some (customerManager_search phrase)
  | createOrderMap.productSearch => Some (productManager_search phrase)
  | createOrderMap.cartRuleSearchInput => Some (cartRuleManager_search phrase)
  | _ => None
  end.

(** What each search listener hands to [setTimeout] for an event on a
    page. *)
Definition scheduled (s : createOrderMap.selector) (e : dom_event) (d : dom)
  : closure :=
  match s with
  | createOrderMap.productSearch =>
      product_search_later (elem_val (currentTarget e) d)
  | createOrderMap.cartRuleSearchInput =>
      cartRule_search_later (elem_val (currentTarget e) d)
  | _ => customer_search_later e
  end.

(** A body that leaves its argument object as it found it. *)
Definition reads {P A} (m : M P A) : Prop :=
  forall p w, snd (fst (m p w)) = p.

(** A body that assigns state fields only. *)
Definition keeps {P A} (m : M P A) : Prop :=
  forall p w, footprint w (snd (m p w)).

(** The subscriptions under one name, in subscription order. *)
Definition subscribed (n : eventMap.name) (w : world) : list subscription :=
  filter (fun s => if eventMap.name_eq_dec (projT1 s) n then true else false)
         (bus_listeners w).

(** The listener the constructor subscribes under each name. *)
Definition subscriber (n : eventMap.name) : bus_listener n :=
  match n with
  | eventMap.cartLoaded => on_cartLoaded
  | eventMap.cartAddressesChanged => on_cartAddressesChanged
  | eventMap.cartDeliveryOptionChanged => on_cartDeliveryOptionChanged
  | eventMap.cartFreeShippingSet => on_cartFreeShippingSet
  | eventMap.cartCurrencyChanged => on_cartCurrencyChanged
  | eventMap.cartCurrencyChangeFailed => on_cartCurrencyChangeFailed
  | eventMap.cartLanguageChanged => on_cartLanguageChanged
  end.

(** Whether a cart-loaded payload makes the listener change the cart
    addresses, and the calls the listener makes on a page. *)
Definition needs_address_change (c : cartInfo) : bool :=
  negb (is_empty (addresses c))
  && negb (validateSelectedAddresses (addresses c)).

Definition cartLoaded_calls (c : cartInfo) (d : dom) : list call :=
  render_calls c ++
  (if needs_address_change c
   then [address_change (cartId c) (rendered_page c d)] else []) ++
  [ customerManager_loadCustomerCarts (cartId c);
    customerManager_loadCustomerOrders ].

End Controller.

Section Reachable.
Context {env : Environment}.

(** The states the page goes through once the controller is built: DOM
    events reach the container, events are published, time passes, the
    user types. *)
Inductive reachable : world -> Prop :=
| reach_created d : reachable (created d)
| reach_trigger e w : reachable w -> reachable (snd (trigger e w))
| reach_emit n (p : payload_of n) w :
    reachable w -> reachable (snd (emit n p w))
| reach_advance t w : reachable w -> reachable (advance t w)
| reach_types el text w :
    reachable w -> reachable (with_page (user_types el text (page w)) w).

End Reachable.

(** A cart info for examples: one address, selected for delivery only. *)
Definition sample_cart : cartInfo :=
  {| cartId := VNum 12;
     addresses := [ {| delivery := VBool true; invoice := VBool false |} ];
     shipping := VNull; products := []; cartRules := VNull;
     currencyId := VNum 1; langId := VNum 2 |}.

(** ** Runs of the page *)

Section Runs.
Context {env : Environment}.

(** One thing that happens on the page. *)
Inductive action : Type :=
| Dom (e : dom_event)
| Publish (n : eventMap.name) (p : payload_of n)
| Wait (t : Z)
| Types (el : element) (text : string).

Definition act (w : world) (a : action) : world :=
  match a with
  | Dom e => snd (trigger e w)
  | Publish n p => snd (emit n p w)
  | Wait t => advance t w
  | Types el text => with_page (user_types el text (page w)) w
  end.

Definition run (actions : list action) (w : world) : world :=
  fold_left act actions w.

(** The cart info the latest [cartLoaded] publication of a run carried,
    and the click on the choose-customer button a run saw last. *)
Fixpoint last_cartLoaded (actions : list action) : option cartInfo :=
  match actions with
  | [] => None
  | a :: rest =>
      match last_cartLoaded rest with
      | Some c => Some c
      | None =>
          match a with
          | Publish eventMap.cartLoaded c => Some c
          | _ => None
          end
      end
  end.

Definition chooses_customer (a : action) : bool :=
  match a with
  | Dom e =>
      String.eqb (type e) "click"
      && (if createOrderMap.selector_eq_dec (matched e)
               createOrderMap.chooseCustomerBtn then true else false)
  | _ => false
  end.

(** Actions that can touch the debounce timer: an [input] event, or
    time passing. *)
Definition touches_timer (a : action) : bool :=
  match a with
  | Dom e => String.eqb (type e) "input"
  | Wait _ => true
  | _ => false
  end.

(** A keystroke with its time, input, node and text, and a burst of
    them in order. *)
Record stroke : Type := {
  at_ : Z; on : createOrderMap.selector; node : element; typed : string
}.

Definition strike (w : world) (k : stroke) : world :=
  keystroke (at_ k) (on k) (node k) (typed k) w.

Definition strikes (ks : list stroke) (w : world) : world :=
  fold_left strike ks w.

(** Each keystroke of the burst comes less than 300 after the one
    before, on one of the three search inputs. *)
Fixpoint burst (t : Z) (ks : list stroke) : Prop :=
  match ks with
  | [] => True
  | k :: rest =>
      (t <= at_ k < t + 300)%Z /\
      search_call (on k) (VStr (typed k)) <> None /\
      burst (at_ k) rest
  end.

(** The calls that reach one of the five renderers. *)
Definition is_render (c : call) : bool :=
  match c with
  | addressesRenderer_render _ | shippingRenderer_render _ _
  | cartRulesRenderer_renderCartRulesBlock _ _
  | productRenderer_renderList _ | productRenderer_cleanCartBlockAlerts
  | productRenderer_renderCartBlockErrorAlert _
  | summaryRenderer_render _ => true
  | _ => false
  end.

(** From [w] to [w'] the clock stood still and the log grew, at that
    time, by calls that satisfy [Q] only. *)
Definition logged (Q : call -> bool) (w w' : world) : Prop :=
  now w' = now w /\
  exists cs, calls w' = at_time (now w) cs ++ calls w /\
             forallb Q cs = true.

Definition logs {P A} (Q : call -> bool) (m : M P A) : Prop :=
  forall p w, logged Q w (snd (m p w)).

Definition not_render (c : call) : bool := negb (is_render c).

(** The log is in time order, latest first, and nothing in it is later
    than the clock. *)
Fixpoint ordered (t : Z) (log : list (Z * call)) : Prop :=
  match log with
  | [] => True
  | (t', _) :: rest => (t' <= t)%Z /\ ordered t' rest
  end.

(** The cart id a call carries, if it carries one. *)
Definition cart_of (c : call) : option value :=
  match c with
  | customerManager_loadCustomerCarts cart
  | cartRuleManager_addCartRuleToCart _ cart
  | cartRuleManager_removeCartRuleFromCart _ cart
  | productManager_addProductToCart cart
  | productManager_removeProductFromCart cart _
  | productManager_changeProductPrice cart _ _ _
  | productManager_changeProductQty cart _ _
  | cartEditor_changeDeliveryOption cart _
  | cartEditor_setFreeShipping cart _
  | cartEditor_changeCartCurrency cart _
  | cartEditor_changeCartLanguage cart _
  | cartEditor_changeCartAddresses cart _
  | summaryManager_sendProcessOrderEmail cart => Some cart
  | _ => None
  end.

(** The type and selector a delegated listener is bound for. *)
Definition binding (d : delegation) : string * createOrderMap.selector :=
  fst d.

(** What a DOM listener leaves of the event it was handed. *)
Definition event_after (l : dom_listener) (e : dom_event) : dom_event :=
  match l with
  | mousedown_foundCartRuleListItem => preventDefault e
  | _ => e
  end.

End Runs.


(** ** The validator *)

Section Validator.

Lemma validate_step_existsb (l : list address) (d i : bool) :
  fold_left validate_step l (d, i) =
  (d || existsb (fun a => truthy (delivery a)) l,
   i || existsb (fun a => truthy (invoice a)) l).
Proof.
  revert d i. induction l as [|a l IH]; intros d i; simpl.
  - now rewrite !orb_false_r.
  - rewrite IH. destruct (truthy (delivery a)), (truthy (invoice a)), d, i;
      reflexivity.
Qed.

Lemma validateSelectedAddresses_existsb (l : list address) :
  validateSelectedAddresses l =
  existsb (fun a => truthy (delivery a)) l
  && existsb (fun a => truthy (invoice a)) l.
Proof.
  unfold validateSelectedAddresses. now rewrite validate_step_existsb.
Qed.

Lemma has_delivery_existsb (l : list address) :
  has_delivery l <-> existsb (fun a => truthy (delivery a)) l = true.
Proof. unfold has_delivery. now rewrite existsb_exists. Qed.

Lemma has_invoice_existsb (l : list address) :
  has_invoice l <-> existsb (fun a => truthy (invoice a)) l = true.
Proof. unfold has_invoice. now rewrite existsb_exists. Qed.

Lemma existsb_Permutation {A} (f : A -> bool) (l l' : list A) :
  Permutation l l' -> existsb f l = existsb f l'.
Proof.
  induction 1 as [|x l l' _ IH|x y l|l l' l'' _ IH1 _ IH2]; simpl.
  - reflexivity.
  - now rewrite IH.
  - now destruct (f x), (f y).
  - now rewrite IH1.
Qed.

Lemma truthy_boolean (v : value) :
  (exists b, v = VBool b) -> truthy v = true -> v = VBool true.
Proof. intros [b ->]; simpl; now intros ->. Qed.

End Validator.

(** C1: [validateSelectedAddresses] answers true exactly when some record
    has a truthy delivery flag and some record (possibly the same one) has
    a truthy invoice flag; it answers false on the empty list and whenever
    one of the two roles is absent from the list. *)
Theorem validateSelectedAddresses_iff :
  validateSelectedAddresses [] = false /\
  forall addresses,
    (validateSelectedAddresses addresses = true <->
     has_delivery addresses /\ has_invoice addresses) /\
    (validateSelectedAddresses addresses = false <->
     ~ has_delivery addresses \/ ~ has_invoice addresses).
Proof.
  split; [reflexivity|]. intros l.
  rewrite has_delivery_existsb, has_invoice_existsb,
    validateSelectedAddresses_existsb.
  destruct (existsb _ l), (existsb _ l); simpl; intuition congruence.
Qed.

(** C2, as stated, fails: the loop tests truthiness, so a record whose flags
    are the number 1 validates although no flag is the boolean [true]. *)
Lemma validateSelectedAddresses_not_strict :
  ~ (forall addresses,
       validateSelectedAddresses addresses = true ->
       (exists a, In a addresses /\ delivery a = VBool true) /\
       (exists a, In a addresses /\ invoice a = VBool true)).
Proof.
  intros H.
  destruct (H [ {| delivery := VNum 1; invoice := VNum 1 |} ] eq_refl)
    as [[a [[<-|[]] Ha]] _].
  discriminate Ha.
Qed.

(** C2, amended: when [validateSelectedAddresses] answers true, some record
    has a truthy delivery flag and some record has a truthy invoice flag;
    if moreover every flag in the list is a boolean, those flags are the
    boolean [true]. *)
Theorem validateSelectedAddresses_true_only_if addresses :
  validateSelectedAddresses addresses = true ->
  (has_delivery addresses /\ has_invoice addresses) /\
  (Forall boolean_flags addresses ->
   (exists a, In a addresses /\ delivery a = VBool true) /\
   (exists a, In a addresses /\ invoice a = VBool true)).
Proof.
  intros Hv.
  destruct validateSelectedAddresses_iff as [_ Hiff].
  destruct (Hiff addresses) as [[Hd _] _]. specialize (Hd Hv).
  split; [exact Hd|]. intros Hb. rewrite Forall_forall in Hb.
  destruct Hd as [[a [Hin Ha]] [a' [Hin' Ha']]]. split.
  - exists a. split; [exact Hin|].
    apply truthy_boolean; [apply (Hb a Hin)|exact Ha].
  - exists a'. split; [exact Hin'|].
    apply truthy_boolean; [apply (Hb a' Hin')|exact Ha'].
Qed.

Lemma validateSelectedAddresses_true_only_if_example :
  let l := [ {| delivery := VBool true; invoice := VBool false |};
             {| delivery := VBool false; invoice := VBool true |} ] in
  (has_delivery l /\ has_invoice l) /\
  (Forall boolean_flags l ->
   (exists a, In a l /\ delivery a = VBool true) /\
   (exists a, In a l /\ invoice a = VBool true)).
Proof.
  intros l. apply (validateSelectedAddresses_true_only_if l). reflexivity.
Defined.

(** C9: the answer of [validateSelectedAddresses] does not depend on the
    order of the records; the function reads its argument and assigns its
    two locals only. *)
Theorem validateSelectedAddresses_Permutation addresses addresses' :
  Permutation addresses addresses' ->
  validateSelectedAddresses addresses = validateSelectedAddresses addresses'.
Proof.
  intros Hp. rewrite !validateSelectedAddresses_existsb.
  now rewrite (existsb_Permutation _ _ _ Hp), (existsb_Permutation _ _ _ Hp).
Qed.

Lemma validateSelectedAddresses_Permutation_example :
  validateSelectedAddresses
    [ {| delivery := VBool true; invoice := VNull |};
      {| delivery := VNum 0; invoice := VStr "1" |} ] =
  validateSelectedAddresses
    [ {| delivery := VNum 0; invoice := VStr "1" |};
      {| delivery := VBool true; invoice := VNull |} ].
Proof.
  apply validateSelectedAddresses_Permutation. apply perm_swap.
Defined.

(** ** The controller *)

Section ControllerFacts.
Context {env : Environment}.

Lemma created_container_listeners (d : dom) :
  container_listeners (created d) =
  [ ("input", createOrderMap.customerSearchInput, input_customerSearchInput);
    ("click", createOrderMap.chooseCustomerBtn, click_chooseCustomerBtn);
    ("click", createOrderMap.useCartBtn, click_useCartBtn);
    ("click", createOrderMap.useOrderBtn, click_useOrderBtn);
    ("input", createOrderMap.productSearch, input_productSearch);
    ("input", createOrderMap.cartRuleSearchInput, input_cartRuleSearchInput);
    ("blur", createOrderMap.cartRuleSearchInput, blur_cartRuleSearchInput);
    ("mousedown", createOrderMap.foundCartRuleListItem,
      mousedown_foundCartRuleListItem);
    ("click", createOrderMap.foundCartRuleListItem,
      click_foundCartRuleListItem);
    ("click", createOrderMap.cartRuleDeleteBtn, click_cartRuleDeleteBtn);
    ("change", createOrderMap.deliveryOptionSelect,
      change_deliveryOptionSelect);
    ("change", createOrderMap.freeShippingSwitch, change_freeShippingSwitch);
    ("click", createOrderMap.addToCartButton, click_addToCartButton);
    ("change", createOrderMap.cartCurrencySelect, change_cartCurrencySelect);
    ("change", createOrderMap.cartLanguageSelect, change_cartLanguageSelect);
    ("click", createOrderMap.sendProcessOrderEmailBtn,
      click_sendProcessOrderEmailBtn);
    ("change", createOrderMap.listedProductUnitPriceInput,
      change_listedProductUnitPriceInput);
    ("change", createOrderMap.listedProductQtyInput,
      change_listedProductQtyInput);
    ("change", createOrderMap.addressSelect, change_addressSelect);
    ("click", createOrderMap.productRemoveBtn, click_productRemoveBtn) ].
Proof. reflexivity. Qed.

Lemma created_bus_listeners (d : dom) :
  bus_listeners (created d) =
  [ existT _ _ on_cartAddressesChanged;
    existT _ _ on_cartDeliveryOptionChanged;
    existT _ _ on_cartFreeShippingSet;
    existT _ _ on_cartCurrencyChanged;
    existT _ _ on_cartCurrencyChangeFailed;
    existT _ _ on_cartLanguageChanged;
    existT _ _ on_cartLoaded ].
Proof. reflexivity. Qed.

Lemma created_wired (d : dom) : wired (created d).
Proof. split; reflexivity. Qed.

End ControllerFacts.

(** ** The shared debounce timer *)

Section Debounce.
Context {env : Environment}.

Lemma earliest_In ts tm : earliest ts = Some tm -> In tm ts.
Proof.
  revert tm. induction ts as [|x ts IH]; simpl; [discriminate|].
  intros tm. destruct (earliest ts) as [tm'|].
  - destruct (due tm' <? due x)%Z; intros [= <-]; auto.
  - intros [= <-]; auto.
Qed.

Lemma next_due_pending_after t w :
  pending_after t w -> next_due t (timers w) = None.
Proof.
  intros Hp. unfold next_due.
  destruct (earliest (timers w)) as [tm|] eqn:E; [|reflexivity].
  apply earliest_In, Hp in E.
  destruct (Z.leb_spec (due tm) t); [lia|reflexivity].
Qed.

Lemma advance_pending_after t w :
  pending_after t w -> advance t w = with_now (Z.max (now w) t) w.
Proof.
  intros Hp. unfold advance.
  assert (E : run_timers (length (timers w)) t w = w).
  { destruct (length (timers w)); simpl; [reflexivity|].
    now rewrite next_due_pending_after. }
  now rewrite E.
Qed.

Lemma cleared_one_timer w :
  one_timer w -> cleared (this w "timeoutId") (timers w) = [].
Proof.
  unfold one_timer. intros H1. destruct (timers w) as [|tm ts].
  - now destruct (this w "timeoutId").
  - destruct (H1 tm (or_introl eq_refl)) as [-> Hts].
    injection Hts as ->. simpl. now rewrite Z.eqb_refl.
Qed.

Lemma trigger_search w e s text c :
  wired w -> type e = "input" -> matched e = s ->
  search_call s (VStr text) = Some c ->
  snd (trigger e w) =
  {| this := fun k => if String.eqb "timeoutId" k then VNum (next_timer w)
                      else this w k;
     assigned := "timeoutId" :: assigned w;
     page := page w;
     timers :=
       cleared (this w "timeoutId") (timers w) ++
       [{| timer_id := next_timer w; due := now w + 300;
           callback := scheduled s e (page w) |}];
     next_timer := next_timer w + 1;
     now := now w;
     calls := calls w;
     next_ref := next_ref w;
     container_listeners := container_listeners w;
     bus_listeners := bus_listeners w |}.
Proof.
  intros [Hc _] Hty Hs Hcall. unfold trigger.
  pattern (container_listeners w) at 1.
  rewrite Hc, created_container_listeners.
  destruct e as [ty m el dp]; simpl in Hty, Hs; subst ty m.
  destruct s; try discriminate Hcall; reflexivity.
Qed.

(** The input event of a keystroke. *)
Lemma keystroke_world w t s el text c :
  wired w -> pending_after t w ->
  search_call s (VStr text) = Some c ->
  keystroke t s el text w =
  {| this := fun k => if String.eqb "timeoutId" k then VNum (next_timer w)
                      else this w k;
     assigned := "timeoutId" :: assigned w;
     page := user_types el text (page w);
     timers :=
       cleared (this w "timeoutId") (timers w) ++
       [{| timer_id := next_timer w; due := Z.max (now w) t + 300;
           callback :=
             scheduled s {| type := "input"; matched := s;
                            currentTarget := el; defaultPrevented := false |}
                       (user_types el text (page w)) |}];
     next_timer := next_timer w + 1;
     now := Z.max (now w) t;
     calls := calls w;
     next_ref := next_ref w;
     container_listeners := container_listeners w;
     bus_listeners := bus_listeners w |}.
Proof.
  intros Hw Hp Hc. unfold keystroke.
  rewrite (advance_pending_after _ _ Hp).
  now rewrite (trigger_search _ _ s text c).
Qed.

(** The search a pending closure ends in, on a page where the input
    still holds the typed text. *)
Lemma run_scheduled s el text c dp w :
  search_call s (VStr text) = Some c ->
  elem_val el (page w) = VStr text ->
  snd (run_closure
         (scheduled s {| type := "input"; matched := s;
                         currentTarget := el; defaultPrevented := dp |}
                    (page w)) tt w) =
  with_calls ((now w, c) :: calls w) (collaborator c (page w)) w.
Proof.
  intros Hc Hv.
  destruct s; try discriminate Hc; injection Hc as <-;
    cbn; now rewrite Hv.
Qed.

(** One pending search timer, due by [T]: time passing until [T] runs
    it, and nothing is pending afterwards. *)
Lemma advance_due_search w tm T s el text c dp :
  timers w = [tm] -> (due tm <= T)%Z -> (now w <= due tm)%Z ->
  callback tm =
    scheduled s {| type := "input"; matched := s; currentTarget := el;
                   defaultPrevented := dp |} (page w) ->
  elem_val el (page w) = VStr text ->
  search_call s (VStr text) = Some c ->
  calls (advance T w) = (due tm, c) :: calls w /\
  timers (advance T w) = [].
Proof.
  intros Hts HT Hnow Hcb Hv Hc. unfold advance. rewrite Hts.
  simpl length. unfold run_timers. rewrite Hts. unfold next_due.
  simpl earliest. cbv beta iota.
  rewrite (proj2 (Z.leb_le (due tm) T) HT).
  unfold fire. rewrite Hcb, Hts.
  set (w1 := with_now (Z.max (now w) (due tm)) _).
  pose proof (run_scheduled s el text c dp w1 Hc Hv) as E.
  change (page w1) with (page w) in E at 1. rewrite E.
  subst w1. simpl. rewrite Z.eqb_refl, Z.max_r by exact Hnow.
  split; reflexivity.
Qed.

Lemma keystroke_effect w t s el text c :
  wired w -> one_timer w -> pending_after t w -> (now w <= t)%Z ->
  search_call s (VStr text) = Some c ->
  let w' := keystroke t s el text w in
  (wired w' /\ one_timer w' /\ pending_after (t + 299) w') /\
  (now w' = t /\ calls w' = calls w) /\
  forall T, (t + 300 <= T)%Z ->
    calls (advance T w') = ((t + 300)%Z, c) :: calls w /\
    timers (advance T w') = [].
Proof.
  intros Hw H1 Hp Hnow Hc w'. subst w'.
  rewrite (keystroke_world w t s el text c Hw Hp Hc).
  rewrite (cleared_one_timer w H1), Z.max_r by exact Hnow.
  split; [|split].
  - split; [exact Hw|]. split.
    + intros tm [<-|[]]. split; reflexivity.
    + intros tm [<-|[]]. cbn. lia.
  - split; reflexivity.
  - intros T HT.
    match goal with
    | |- calls (advance T ?W) = _ /\ _ =>
        match eval simpl in (timers W) with
        | [?tm] =>
            apply (advance_due_search W tm T s el text c false eq_refl)
        end
    end; simpl; try reflexivity; try assumption; try lia.
    apply elem_val_user_types.
Qed.

Lemma search_call_phrase s a b c :
  search_call s a = Some c -> exists c', search_call s b = Some c'.
Proof. destruct s; try discriminate; simpl; eauto. Qed.

(** C3: the three search inputs share one timer handle. Whatever search
    is pending, scheduled by any of the inputs, a keystroke on any of
    them leaves only its own dispatch, 300 later; so a product-search
    keystroke at 0 followed by a cart-rule keystroke at 50 ends in one
    dispatch only, the cart-rule search at 350. *)
Theorem shared_timer_cross_cancels w :
  wired w -> one_timer w ->
  (forall t s el text c T,
     pending_after t w -> (now w <= t)%Z ->
     search_call s (VStr text) = Some c -> (t + 300 <= T)%Z ->
     let w' := keystroke t s el text w in
     this w' "timeoutId" = VNum (next_timer w) /\
     calls (advance T w') = ((t + 300)%Z, c) :: calls w /\
     timers (advance T w') = []) /\
  (forall el el' a b T,
     pending_after 0 w -> (now w <= 0)%Z -> (350 <= T)%Z ->
     let w' :=
       keystroke 50 createOrderMap.cartRuleSearchInput el' b
         (keystroke 0 createOrderMap.productSearch el a w) in
     calls (advance T w') =
       (350%Z, cartRuleManager_search (VStr b)) :: calls w /\
     timers (advance T w') = []).
Proof.
  intros Hw H1. split.
  - intros t s el text c T Hp Hnow Hc HT w'. split.
    + subst w'. rewrite (keystroke_world w t s el text c Hw Hp Hc).
      reflexivity.
    + apply (keystroke_effect w t s el text c); assumption.
  - intros el el' a b T Hp Hnow HT w'.
    destruct (keystroke_effect w 0 createOrderMap.productSearch el a
                _ Hw H1 Hp Hnow eq_refl)
      as [[Hw1 [H11 Hp1]] [[Hn1 Hc1] _]].
    destruct (keystroke_effect _ 50 createOrderMap.cartRuleSearchInput el' b
                (cartRuleManager_search (VStr b)) Hw1 H11)
      as [_ [_ Hfire]].
    + intros tm Hin. apply Hp1 in Hin. lia.
    + rewrite Hn1. lia.
    + reflexivity.
    + subst w'. rewrite <- Hc1. apply Hfire. lia.
Qed.

Lemma created_idle (d : dom) (t : Z) :
  one_timer (created d) /\ pending_after t (created d).
Proof.
  assert (E : timers (created d) = []) by reflexivity.
  unfold one_timer, pending_after. rewrite E. split; intros tm [].
Qed.

(** C4: three keystrokes on one debounced input at 0, 100 and 250 end in
    exactly one search, at 550, with the text typed at 250. *)
Theorem debounce_last_keystroke_wins w s el v0 v1 v2 c T :
  wired w -> one_timer w -> pending_after 0 w -> (now w <= 0)%Z ->
  search_call s (VStr v2) = Some c -> (550 <= T)%Z ->
  let w' :=
    keystroke 250 s el v2 (keystroke 100 s el v1 (keystroke 0 s el v0 w)) in
  calls w' = calls w /\
  calls (advance T w') = (550%Z, c) :: calls w /\
  timers (advance T w') = [].
Proof.
  intros Hw H1 Hp Hnow Hc HT w'.
  destruct (search_call_phrase s _ (VStr v0) c Hc) as [c0 Hc0].
  destruct (search_call_phrase s _ (VStr v1) c Hc) as [c1 Hc1].
  destruct (keystroke_effect w 0 s el v0 c0 Hw H1 Hp Hnow Hc0)
    as [[Hwa [H1a Hpa]] [[Hna Hca] _]].
  assert (Hpa' : pending_after 100 (keystroke 0 s el v0 w)).
  { intros tm Hin. apply Hpa in Hin. lia. }
  assert (Hna' : (now (keystroke 0 s el v0 w) <= 100)%Z).
  { rewrite Hna. lia. }
  destruct (keystroke_effect _ 100 s el v1 c1 Hwa H1a Hpa' Hna' Hc1)
    as [[Hwb [H1b Hpb]] [[Hnb Hcb] _]].
  assert (Hpb' : pending_after 250
                   (keystroke 100 s el v1 (keystroke 0 s el v0 w))).
  { intros tm Hin. apply Hpb in Hin. lia. }
  assert (Hnb' : (now (keystroke 100 s el v1 (keystroke 0 s el v0 w))
                  <= 250)%Z).
  { rewrite Hnb. lia. }
  destruct (keystroke_effect _ 250 s el v2 c Hwb H1b Hpb' Hnb' Hc)
    as [_ [[_ Hcc] Hfire]].
  subst w'. rewrite <- Hca, <- Hcb. split; [exact Hcc|].
  apply Hfire. lia.
Qed.

End Debounce.

Lemma shared_timer_cross_cancels_example :
  let w := created (env := sample_environment) sample_page in
  let w' :=
    keystroke 50 createOrderMap.cartRuleSearchInput 2 "b"
      (keystroke 0 createOrderMap.productSearch 1 "a" w) in
  calls (advance 350 w') =
    (350%Z, cartRuleManager_search (VStr "b")) :: calls w /\
  timers (advance 350 w') = [].
Proof.
  intros w w'.
  destruct (shared_timer_cross_cancels w (created_wired _)
              (proj1 (created_idle _ 0))) as [_ H].
  apply (H 1%nat 2%nat "a" "b" 350%Z).
  - apply (proj2 (created_idle _ 0)).
  - apply Z.le_refl.
  - apply Z.le_refl.
Defined.

Lemma debounce_last_keystroke_wins_example :
  let w := created (env := sample_environment) sample_page in
  let w' :=
    keystroke 250 createOrderMap.customerSearchInput 1 "abc"
      (keystroke 100 createOrderMap.customerSearchInput 1 "ab"
         (keystroke 0 createOrderMap.customerSearchInput 1 "a" w)) in
  calls w' = calls w /\
  calls (advance 600 w') =
    (550%Z, customerManager_search (VStr "abc")) :: calls w /\
  timers (advance 600 w') = [].
Proof.
  apply (debounce_last_keystroke_wins
           (created (env := sample_environment) sample_page)
           createOrderMap.customerSearchInput 1%nat "a" "ab" "abc").
  - apply created_wired.
  - apply (proj1 (created_idle _ 0)).
  - apply (proj2 (created_idle _ 0)).
  - apply Z.le_refl.
  - reflexivity.
  - discriminate.
Defined.

(** ** The event bus *)

Section Bus.
Context {env : Environment}.

(** On a page wired by the constructor, a published event reaches the one
    listener subscribed under its name. *)
Lemma emit_wired n (p : payload_of n) w :
  wired w ->
  emit n p w =
  let '(_, p', w') := run_bus_listener (subscriber n) p w in (p', w').
Proof.
  intros [_ Hb]. unfold emit. pattern (bus_listeners w) at 1.
  rewrite Hb, created_bus_listeners.
  destruct n; reflexivity.
Qed.

Lemma emit_wired_world n (p : payload_of n) w :
  wired w ->
  snd (emit n p w) = snd (run_bus_listener (subscriber n) p w).
Proof.
  intros Hw. rewrite (emit_wired _ _ _ Hw).
  now destruct (run_bus_listener (subscriber n) p w) as [[u p'] w'].
Qed.

(** What the cart-loaded listener leaves behind. *)
Lemma on_cartLoaded_world (c : cartInfo) w :
  let w' := snd (run_bus_listener on_cartLoaded c w) in
  (this w' "cartId" = cartId c /\
   calls w' = at_time (now w) (cartLoaded_calls c (page w)) ++ calls w) /\
  (timers w' = timers w /\ this w' "timeoutId" = this w "timeoutId") /\
  (container_listeners w' = container_listeners w /\
   bus_listeners w' = bus_listeners w).
Proof.
  unfold cartLoaded_calls, needs_address_change.
  destruct (negb (is_empty (addresses c)) &&
            negb (validateSelectedAddresses (addresses c))) eqn:E;
    lazy -[validateSelectedAddresses is_empty negb andb addresses];
    rewrite E; repeat split.
Qed.

(** C5: a published [cartAddressesChanged] event makes exactly three
    calls: the addresses renderer with the payload's addresses, the
    shipping renderer with its shipping block and whether its product
    list is empty, and the summary renderer with the whole cart info. *)
Theorem cartAddressesChanged_renders w (c : cartInfo) :
  wired w ->
  calls (snd (emit eventMap.cartAddressesChanged c w)) =
  at_time (now w)
    [ addressesRenderer_render (addresses c);
      shippingRenderer_render (shipping c) (is_empty (products c));
      summaryRenderer_render c ] ++ calls w.
Proof. intros Hw. rewrite (emit_wired_world _ _ _ Hw). reflexivity. Qed.

(** C6: currency change has two subscriptions, one per event name. The
    failure listener shows the response's message through
    [renderCartBlockErrorAlert] and does nothing else; the success
    listener clears the cart-block alerts and preselects the payload's
    currency. *)
Theorem currency_change_listeners w :
  wired w ->
  (subscribed eventMap.cartCurrencyChanged w =
     [existT _ _ on_cartCurrencyChanged] /\
   subscribed eventMap.cartCurrencyChangeFailed w =
     [existT _ _ on_cartCurrencyChangeFailed]) /\
  (forall r : response,
     let alert :=
       productRenderer_renderCartBlockErrorAlert (message (responseJSON r)) in
     let w' := snd (emit eventMap.cartCurrencyChangeFailed r w) in
     calls w' = (now w, alert) :: calls w /\
     page w' = collaborator alert (page w) /\
     this w' = this w /\ assigned w' = assigned w /\
     timers w' = timers w /\ now w' = now w) /\
  (forall c : cartInfo,
     let w' := snd (emit eventMap.cartCurrencyChanged c w) in
     calls w' = (now w, productRenderer_cleanCartBlockAlerts) :: calls w /\
     page w' =
       jq_set_val createOrderMap.cartCurrencySelect (currencyId c)
         (collaborator productRenderer_cleanCartBlockAlerts (page w)) /\
     this w' = this w /\ assigned w' = assigned w /\
     timers w' = timers w /\ now w' = now w).
Proof.
  intros Hw. split; [|split].
  - unfold subscribed. rewrite (proj2 Hw), created_bus_listeners.
    split; reflexivity.
  - intros r alert w'. subst w'. rewrite (emit_wired_world _ _ _ Hw).
    repeat (split; [reflexivity|]). reflexivity.
  - intros c w'. subst w'. rewrite (emit_wired_world _ _ _ Hw).
    repeat (split; [reflexivity|]). reflexivity.
Qed.

Lemma existsb_address_change_render (c : cartInfo) :
  existsb is_address_change (render_calls c) = false.
Proof. reflexivity. Qed.

(** C10: a published [cartLoaded] event sets [this.cartId] to the
    payload's cart id, and asks the cart editor for an address change,
    with that cart id and the address ids selected on the page, exactly
    when the payload's address list is non-empty and does not
    validate. *)
Theorem cartLoaded_address_change w (c : cartInfo) :
  wired w ->
  let w' := snd (emit eventMap.cartLoaded c w) in
  let made := cartLoaded_calls c (page w) in
  (this w' "cartId" = cartId c /\
   calls w' = at_time (now w) made ++ calls w) /\
  (existsb is_address_change made = true <->
   addresses c <> [] /\ validateSelectedAddresses (addresses c) = false) /\
  (forall x, In x made -> is_address_change x = true ->
     x = address_change (cartId c) (rendered_page c (page w))).
Proof.
  intros Hw w' made. subst w' made. rewrite (emit_wired_world _ _ _ Hw).
  split; [apply (proj1 (on_cartLoaded_world c w))|].
  unfold cartLoaded_calls, needs_address_change.
  destruct (addresses c) as [|a l] eqn:Ea.
  - split.
    + split; [discriminate|]. now intros [H _].
    + intros x Hin Hx. simpl in Hin.
      repeat (destruct Hin as [<-|Hin]; [discriminate Hx|]). destruct Hin.
  - destruct (validateSelectedAddresses (a :: l)); split.
    + split; [discriminate|]. intros [_ H]. discriminate H.
    + intros x Hin Hx. simpl in Hin.
      repeat (destruct Hin as [<-|Hin]; [discriminate Hx|]). destruct Hin.
    + split; [intros _; split; [discriminate|reflexivity]|reflexivity].
    + intros x Hin Hx. simpl in Hin.
      repeat (destruct Hin as [<-|Hin];
              [first [discriminate Hx|reflexivity]|]).
      destruct Hin.
Qed.

End Bus.


(** ** Reachable states *)

Section ReachableFacts.
Context {env : Environment}.

(** A step that leaves the timers, the handle and the listeners alone
    keeps a settled page settled. *)
Lemma settled_same w w' :
  timers w' = timers w ->
  this w' "timeoutId" = this w "timeoutId" ->
  container_listeners w' = container_listeners w ->
  bus_listeners w' = bus_listeners w ->
  wired w /\ one_timer w -> wired w' /\ one_timer w'.
Proof.
  intros Ht Hh Hc Hb [[Wc Wb] H1]. split.
  - split.
    + now rewrite Hc, Wc, !created_container_listeners.
    + now rewrite Hb, Wb, !created_bus_listeners.
  - unfold one_timer. rewrite Ht, Hh. exact H1.
Qed.

(** A debounced search leaves its own timer only. *)
Lemma settled_search w w' cl :
  timers w' =
    cleared (this w "timeoutId") (timers w) ++
    [{| timer_id := next_timer w; due := now w + 300; callback := cl |}] ->
  this w' "timeoutId" = VNum (next_timer w) ->
  container_listeners w' = container_listeners w ->
  bus_listeners w' = bus_listeners w ->
  wired w /\ one_timer w -> wired w' /\ one_timer w'.
Proof.
  intros Ht Hh Hc Hb [[Wc Wb] H1]. split.
  - split.
    + now rewrite Hc, Wc, !created_container_listeners.
    + now rewrite Hb, Wb, !created_bus_listeners.
  - unfold one_timer. rewrite Ht, Hh, (cleared_one_timer w H1).
    intros tm [<-|[]]. split; reflexivity.
Qed.

Lemma settled_run_dom_listener l e w :
  wired w /\ one_timer w ->
  let w' := snd (run_dom_listener l e w) in wired w' /\ one_timer w'.
Proof.
  destruct l;
    first [ apply settled_same; reflexivity
          | eapply settled_search; reflexivity ].
Qed.

Lemma settled_run_bus_listener n (l : bus_listener n) p w :
  wired w /\ one_timer w ->
  let w' := snd (run_bus_listener l p w) in wired w' /\ one_timer w'.
Proof.
  destruct l; try (apply settled_same; reflexivity).
  destruct (on_cartLoaded_world p w) as [_ [[Ht Hh] [Hc Hb]]].
  now apply settled_same.
Qed.

Lemma settled_trigger e w :
  wired w /\ one_timer w ->
  wired (snd (trigger e w)) /\ one_timer (snd (trigger e w)).
Proof.
  unfold trigger. generalize (container_listeners w) as ds.
  intros ds. revert e w. induction ds as [|d ds IH]; intros e w Hs; simpl.
  - exact Hs.
  - destruct (handles e d); [|now apply IH].
    pose proof (settled_run_dom_listener (snd d) e w Hs) as Hk.
    destruct (run_dom_listener (snd d) e w) as [[u e'] w'].
    now apply IH.
Qed.

Lemma settled_emit n (p : payload_of n) w :
  wired w /\ one_timer w ->
  wired (snd (emit n p w)) /\ one_timer (snd (emit n p w)).
Proof.
  unfold emit. generalize (bus_listeners w) as subs.
  intros subs. revert p w.
  induction subs as [|[n' l] subs IH]; intros p w Hs; simpl.
  - exact Hs.
  - destruct (eventMap.name_eq_dec n' n) as [e|_]; [|now apply IH].
    destruct e; simpl.
    pose proof (settled_run_bus_listener n' l p w Hs) as Hk.
    destruct (run_bus_listener l p w) as [[u p'] w'].
    now apply IH.
Qed.

Lemma settled_fire tm w :
  In tm (timers w) -> wired w /\ one_timer w ->
  wired (fire tm w) /\ one_timer (fire tm w).
Proof.
  intros Hin [Hw H1]. destruct (H1 tm Hin) as [_ Hts]. split.
  - destruct Hw as [Wc Wb]. destruct (callback tm) eqn:Ec; unfold fire;
      rewrite Ec; split; cbn;
      first [ now rewrite Wc, !created_container_listeners
            | now rewrite Wb, !created_bus_listeners ].
  - assert (E : timers (fire tm w) = []).
    { unfold fire. destruct (callback tm); cbn; rewrite Hts; cbn;
        now rewrite Z.eqb_refl. }
    unfold one_timer. rewrite E. intros x [].
Qed.

Lemma settled_run_timers fuel t w :
  wired w /\ one_timer w ->
  wired (run_timers fuel t w) /\ one_timer (run_timers fuel t w).
Proof.
  revert w. induction fuel as [|fuel IH]; intros w Hs; simpl.
  - exact Hs.
  - destruct (next_due t (timers w)) as [tm|] eqn:E; [|exact Hs].
    apply IH, settled_fire; [|exact Hs].
    unfold next_due in E. destruct (earliest (timers w)) as [tm'|] eqn:E';
      [|discriminate].
    destruct (due tm' <=? t)%Z; [|discriminate].
    injection E as <-. now apply earliest_In.
Qed.

Lemma settled_advance t w :
  wired w /\ one_timer w ->
  wired (advance t w) /\ one_timer (advance t w).
Proof.
  intros Hs. unfold advance.
  apply (settled_same (run_timers (length (timers w)) t w));
    try reflexivity.
  now apply settled_run_timers.
Qed.

(** Every state the page reaches is wired as the constructor left it and
    has at most the timer of [this.timeoutId] pending. *)
Lemma reachable_settled w : reachable w -> wired w /\ one_timer w.
Proof.
  induction 1 as [d|e w _ IH|n p w _ IH|t w _ IH|el text w _ IH].
  - split; [apply created_wired|apply (created_idle d 0)].
  - now apply settled_trigger.
  - now apply settled_emit.
  - now apply settled_advance.
  - revert IH. apply settled_same; reflexivity.
Qed.

Lemma reachable_keystroke t s el text w :
  reachable w -> reachable (keystroke t s el text w).
Proof.
  intros Hr. unfold keystroke.
  apply reach_trigger, (reach_types el text), reach_advance, Hr.
Qed.

End ReachableFacts.

Lemma cartAddressesChanged_renders_example :
  let w := created (env := sample_environment) sample_page in
  calls (snd (emit eventMap.cartAddressesChanged sample_cart w)) =
  at_time (now w)
    [ addressesRenderer_render (addresses sample_cart);
      shippingRenderer_render (shipping sample_cart)
        (is_empty (products sample_cart));
      summaryRenderer_render sample_cart ] ++ calls w.
Proof.
  apply (cartAddressesChanged_renders
           (created (env := sample_environment) sample_page) sample_cart).
  apply created_wired.
Defined.

Lemma currency_change_listeners_example :
  let w := created (env := sample_environment) sample_page in
  subscribed eventMap.cartCurrencyChanged w =
    [existT _ _ on_cartCurrencyChanged] /\
  subscribed eventMap.cartCurrencyChangeFailed w =
    [existT _ _ on_cartCurrencyChangeFailed].
Proof.
  apply (currency_change_listeners
           (created (env := sample_environment) sample_page)).
  apply created_wired.
Defined.

Lemma cartLoaded_address_change_example :
  let w := created (env := sample_environment) sample_page in
  let w' := snd (emit eventMap.cartLoaded sample_cart w) in
  this w' "cartId" = VNum 12 /\
  calls w' = at_time (now w) (cartLoaded_calls sample_cart (page w)) ++ calls w.
Proof.
  apply (cartLoaded_address_change
           (created (env := sample_environment) sample_page) sample_cart).
  apply created_wired.
Defined.

(** ** Frames *)

Create HintDb frames.

Section Frames.
Context {env : Environment}.

(** *** The payload *)

Lemma reads_ret {P A} (a : A) : reads (P := P) (ret a).
Proof. intros p w. reflexivity. Qed.

Lemma reads_bind {P A B} (m : M P A) (k : A -> M P B) :
  reads m -> (forall a, reads (k a)) -> reads (bind m k).
Proof.
  intros Hm Hk p w. unfold bind. specialize (Hm p w).
  destruct (m p w) as [[a p'] w']. simpl in Hm. subst p'. apply Hk.
Qed.

Lemma reads_gets {P A} (f : world -> A) : reads (P := P) (gets f).
Proof. intros p w. reflexivity. Qed.

Lemma reads_modify {P} (f : world -> world) : reads (P := P) (modify f).
Proof. intros p w. reflexivity. Qed.

Lemma reads_prop {P A} (f : P -> A) : reads (prop f).
Proof. intros p w. reflexivity. Qed.

Lemma reads_arg {P} : reads (P := P) arg.
Proof. intros p w. reflexivity. Qed.

Lemma reads_if {P A} (b : bool) (m m' : M P A) :
  reads m -> reads m' -> reads (if b then m else m').
Proof. now destruct b. Qed.

Lemma reads_changeCartAddresses {P} : reads (P := P) _changeCartAddresses.
Proof. intros p w. reflexivity. Qed.

Lemma reads_renderCartInfo : reads _renderCartInfo.
Proof. intros p w. reflexivity. Qed.

#[local] Hint Resolve reads_ret reads_gets reads_modify reads_prop reads_arg
  reads_if reads_changeCartAddresses reads_renderCartInfo : frames.

Ltac step_reads :=
  repeat (apply reads_bind; [|intros ?]); auto with frames.

Lemma reads_run_bus_listener n (l : bus_listener n) :
  reads (run_bus_listener l).
Proof.
  destruct l; cbv [run_bus_listener]; step_reads;
    try (intros p w; reflexivity).
Qed.

Lemma emit_payload n (subs : list subscription) (p : payload_of n) w :
  fst (fold_left (fun pw s => deliver n s pw) subs (p, w)) = p.
Proof.
  revert p w. induction subs as [|[n' l] subs IH]; intros p w; simpl.
  - reflexivity.
  - destruct (eventMap.name_eq_dec n' n) as [e|_]; [|apply IH].
    destruct e; simpl.
    pose proof (reads_run_bus_listener n' l p w) as Hr.
    destruct (run_bus_listener l p w) as [[u p'] w']. simpl in Hr.
    subst p'. apply IH.
Qed.

End Frames.

(** C7: no listener on the event bus changes the payload it is handed:
    after the listener, and after the whole publication, the payload is
    the payload that was published. *)
Theorem payload_untouched {env : Environment} :
  (forall n (l : bus_listener n) (p : payload_of n) w,
     snd (fst (run_bus_listener l p w)) = p) /\
  (forall n (p : payload_of n) w, fst (emit n p w) = p).
Proof.
  split.
  - intros n l. apply reads_run_bus_listener.
  - intros n p w. apply emit_payload.
Qed.

(** *** The controller's own properties *)

Section Footprints.
Context {env : Environment}.

Lemma footprint_refl w : footprint w w.
Proof.
  split; [|reflexivity]. exists []. split; [reflexivity|].
  intros x [].
Qed.

Lemma footprint_trans w1 w2 w3 :
  footprint w1 w2 -> footprint w2 w3 -> footprint w1 w3.
Proof.
  intros [[n1 [E1 I1]] T1] [[n2 [E2 I2]] T2]. split.
  - exists (n2 ++ n1). split.
    + now rewrite E2, E1, app_assoc.
    + now apply incl_app.
  - intros name Hn. now rewrite T2, T1.
Qed.

(** A step that assigns nothing on [this]. *)
Lemma footprint_same w w' :
  this w' = this w -> assigned w' = assigned w -> footprint w w'.
Proof.
  intros Ht Ha. split.
  - exists []. split; [now rewrite Ha|]. intros x [].
  - intros name _. now rewrite Ht.
Qed.

Lemma keeps_same {P A} (m : M P A) :
  (forall p w, this (snd (m p w)) = this w) ->
  (forall p w, assigned (snd (m p w)) = assigned w) ->
  keeps m.
Proof. intros Ht Ha p w. apply footprint_same; [apply Ht|apply Ha]. Qed.

Lemma keeps_bind {P A B} (m : M P A) (k : A -> M P B) :
  keeps m -> (forall a, keeps (k a)) -> keeps (bind m k).
Proof.
  intros Hm Hk p w. unfold bind. specialize (Hm p w).
  destruct (m p w) as [[a p'] w']. simpl in Hm.
  apply (footprint_trans _ w'); [exact Hm|apply Hk].
Qed.

Lemma keeps_if {P A} (b : bool) (m m' : M P A) :
  keeps m -> keeps m' -> keeps (if b then m else m').
Proof. now destruct b. Qed.

Lemma keeps_set_this {P} name v :
  In name state_fields -> keeps (P := P) (set_this name v).
Proof.
  intros Hin p w. split.
  - exists [name]. split; [reflexivity|]. intros x [<-|[]]. exact Hin.
  - intros k Hk. cbn.
    destruct (String.eqb_spec name k) as [->|_]; [contradiction|reflexivity].
Qed.

Ltac quiet := apply keeps_same; intros; reflexivity.

Lemma keeps_ret {P A} (a : A) : keeps (P := P) (ret a).
Proof. quiet. Qed.
Lemma keeps_gets {P A} (f : world -> A) : keeps (P := P) (gets f).
Proof. quiet. Qed.
Lemma keeps_prop {P A} (f : P -> A) : keeps (prop f).
Proof. quiet. Qed.
Lemma keeps_arg {P} : keeps (P := P) arg.
Proof. quiet. Qed.
Lemma keeps_set_arg {P} (p : P) : keeps (set_arg p).
Proof. quiet. Qed.
Lemma keeps_invoke {P} c : keeps (P := P) (invoke c).
Proof. quiet. Qed.
Lemma keeps_setTimeout {P} c d : keeps (P := P) (setTimeout c d).
Proof. quiet. Qed.
Lemma keeps_clearTimeout {P} h : keeps (P := P) (clearTimeout h).
Proof. quiet. Qed.
Lemma keeps_set_val {P} s v : keeps (P := P) (set_val s v).
Proof. quiet. Qed.
Lemma keeps_removeClass {P} s c : keeps (P := P) (removeClass s c).
Proof. quiet. Qed.
Lemma keeps_blur {P} s : keeps (P := P) (blur s).
Proof. quiet. Qed.

#[local] Hint Resolve keeps_ret keeps_gets keeps_prop keeps_arg keeps_set_arg
  keeps_invoke keeps_setTimeout keeps_clearTimeout keeps_set_val
  keeps_removeClass keeps_blur keeps_if : frames.

Ltac step_keeps :=
  repeat (apply keeps_bind; [|intros ?]);
  auto with frames;
  try (apply keeps_set_this; simpl; tauto).

Lemma keeps_changeCartAddresses {P} : keeps (P := P) _changeCartAddresses.
Proof. unfold _changeCartAddresses, val_of, get_this. step_keeps. Qed.

Lemma keeps_renderCartInfo : keeps _renderCartInfo.
Proof.
  unfold _renderCartInfo, _preselectCartCurrency, _preselectCartLanguage.
  step_keeps.
Qed.

Lemma keeps_listed_product : keeps listed_product.
Proof. unfold listed_product, target_data. step_keeps. Qed.

#[local] Hint Resolve keeps_changeCartAddresses keeps_renderCartInfo
  keeps_listed_product : frames.

Lemma keeps_run_dom_listener l : keeps (run_dom_listener l).
Proof.
  destruct l;
    cbv [run_dom_listener _initCustomerSearch _initCustomerSelect
         _initCartSelect _initDuplicateOrderCart _initCartRuleSearch
         _initProductSearch _initProductRemoveFromCart
         _initProductChangePrice _initProductChangeQty edit_cart
         get_this target_val target_data];
    step_keeps.
Qed.

Lemma keeps_run_bus_listener n (l : bus_listener n) :
  keeps (run_bus_listener l).
Proof.
  destruct l;
    cbv [run_bus_listener _preselectCartCurrency _preselectCartLanguage
         get_this];
    step_keeps.
Qed.

Lemma keeps_run_closure c : keeps (run_closure c).
Proof. destruct c; cbv [run_closure target_val]; step_keeps. Qed.

(** The steps of the page inherit the footprint of the listeners. *)
Lemma footprint_trigger e w : footprint w (snd (trigger e w)).
Proof.
  unfold trigger. generalize (container_listeners w) as ds.
  intros ds. revert e w. induction ds as [|d ds IH]; intros e w; simpl.
  - apply footprint_refl.
  - destruct (handles e d); [|apply IH].
    pose proof (keeps_run_dom_listener (snd d) e w) as Hk.
    destruct (run_dom_listener (snd d) e w) as [[u e'] w']. simpl in Hk.
    apply (footprint_trans _ w'); [exact Hk|apply IH].
Qed.

Lemma footprint_emit n (p : payload_of n) w : footprint w (snd (emit n p w)).
Proof.
  unfold emit. generalize (bus_listeners w) as subs.
  intros subs. revert p w.
  induction subs as [|[n' l] subs IH]; intros p w; simpl.
  - apply footprint_refl.
  - destruct (eventMap.name_eq_dec n' n) as [e|_]; [|apply IH].
    destruct e; simpl.
    pose proof (keeps_run_bus_listener n' l p w) as Hk.
    destruct (run_bus_listener l p w) as [[u p'] w']. simpl in Hk.
    apply (footprint_trans _ w'); [exact Hk|apply IH].
Qed.

Lemma footprint_fire tm w : footprint w (fire tm w).
Proof.
  unfold fire.
  eapply footprint_trans; [|apply keeps_run_closure].
  apply footprint_same; reflexivity.
Qed.

Lemma footprint_run_timers fuel t w : footprint w (run_timers fuel t w).
Proof.
  revert w. induction fuel as [|fuel IH]; intros w; simpl.
  - apply footprint_refl.
  - destruct (next_due t (timers w)) as [tm|]; [|apply footprint_refl].
    apply (footprint_trans _ (fire tm w)); [apply footprint_fire|apply IH].
Qed.

Lemma footprint_advance t w : footprint w (advance t w).
Proof.
  unfold advance.
  eapply footprint_trans; [apply footprint_run_timers|].
  apply footprint_same; reflexivity.
Qed.

Lemma created_assigned (d : dom) :
  assigned (created d) =
  rev ("cartId" :: "customerId" :: "$container" :: map fst collaborators).
Proof. reflexivity. Qed.

End Footprints.

(** C8: a listener, a timer callback, and so every step of the page,
    assigns no property of [this] other than [cartId], [customerId] and
    [timeoutId]; the constructor assigns each collaborator property
    exactly once, and none of them is one of those three. *)
Theorem handlers_assign_state_fields_only {env : Environment} :
  ((forall l e w, footprint w (snd (run_dom_listener l e w))) /\
   (forall n (l : bus_listener n) p w,
      footprint w (snd (run_bus_listener l p w))) /\
   (forall c w, footprint w (snd (run_closure c tt w)))) /\
  ((forall e w, footprint w (snd (trigger e w))) /\
   (forall n (p : payload_of n) w, footprint w (snd (emit n p w))) /\
   (forall t w, footprint w (advance t w))) /\
  (forall d name class,
     In (name, class) collaborators ->
     count_occ string_dec (assigned (created d)) name = 1%nat /\
     ~ In name state_fields).
Proof.
  split; [|split].
  - split; [|split].
    + intros l. apply keeps_run_dom_listener.
    + intros n l. apply keeps_run_bus_listener.
    + intros c w. apply keeps_run_closure.
  - split; [|split].
    + apply footprint_trigger.
    + apply footprint_emit.
    + apply footprint_advance.
  - intros d name class Hin. rewrite created_assigned.
    unfold collaborators in Hin. simpl in Hin.
    repeat (destruct Hin as [[= <- <-]|Hin];
            [split; [reflexivity|
                     intros [H|[H|[H|[]]]]; discriminate H]|]).
    destruct Hin.
Qed.

Lemma handlers_assign_state_fields_only_example :
  count_occ string_dec
    (assigned (created (env := sample_environment) sample_page))
    "cartEditor" = 1%nat /\
  ~ In "cartEditor" state_fields.
Proof.
  apply (proj2 (proj2 (handlers_assign_state_fields_only
                         (env := sample_environment)))
           sample_page "cartEditor" "CartEditor").
  simpl. tauto.
Defined.

(** ** More on the validator *)

(** Appending address lists: the result is true as soon as the two roles
    are found across the two lists; in particular a list that validates
    keeps validating when records are added on either side. *)
Theorem validateSelectedAddresses_app l l' :
  (validateSelectedAddresses (l ++ l') = true <->
   (has_delivery l \/ has_delivery l') /\ (has_invoice l \/ has_invoice l')) /\
  (validateSelectedAddresses l = true ->
   validateSelectedAddresses (l ++ l') = true /\
   validateSelectedAddresses (l' ++ l) = true).
Proof.
  rewrite !validateSelectedAddresses_existsb, !existsb_app,
    !has_delivery_existsb, !has_invoice_existsb.
  destruct (existsb (fun a => truthy (delivery a)) l),
    (existsb (fun a => truthy (invoice a)) l),
    (existsb (fun a => truthy (delivery a)) l'),
    (existsb (fun a => truthy (invoice a)) l'); simpl;
    intuition congruence.
Qed.

Lemma validateSelectedAddresses_app_example :
  validateSelectedAddresses
    ([ {| delivery := VBool true; invoice := VNum 1 |} ] ++
     [ {| delivery := VNull; invoice := VNull |} ]) = true /\
  validateSelectedAddresses
    ([ {| delivery := VNull; invoice := VNull |} ] ++
     [ {| delivery := VBool true; invoice := VNum 1 |} ]) = true.
Proof.
  apply (proj2 (validateSelectedAddresses_app
                  [ {| delivery := VBool true; invoice := VNum 1 |} ]
                  [ {| delivery := VNull; invoice := VNull |} ])).
  reflexivity.
Defined.

Lemma existsb_filter_or {A} (f g : A -> bool) (l : list A) :
  existsb f (filter (fun a => f a || g a) l) = existsb f l.
Proof.
  induction l as [|a l IH]; simpl; [reflexivity|].
  destruct (f a) eqn:Ef; simpl.
  - now rewrite Ef.
  - destruct (g a); simpl; [rewrite Ef|]; exact IH.
Qed.

(** Records with neither flag truthy do not count: dropping them from
    the list leaves the result as it was. *)
Theorem validateSelectedAddresses_ignores_unselected l :
  validateSelectedAddresses
    (filter (fun a => truthy (delivery a) || truthy (invoice a)) l) =
  validateSelectedAddresses l.
Proof.
  rewrite !validateSelectedAddresses_existsb, existsb_filter_or.
  f_equal.
  rewrite (filter_ext _ (fun a => truthy (invoice a) || truthy (delivery a)))
    by (intros a; apply orb_comm).
  apply (existsb_filter_or (fun a => truthy (invoice a))).
Qed.

(** ** Routing of DOM events *)

Section Routing.
Context {env : Environment}.

Lemma run_dom_listener_event l e w :
  snd (fst (run_dom_listener l e w)) = event_after l e.
Proof. destruct l; reflexivity. Qed.

Lemma handles_binding e d :
  handles e d = true <-> binding d = (type e, matched e).
Proof.
  destruct d as [[ty s] l]. unfold handles, binding. simpl.
  rewrite andb_true_iff, String.eqb_eq.
  destruct (createOrderMap.selector_eq_dec s (matched e)) as [->|Hn].
  - split; [intros [-> _]; reflexivity|intros [= ->]; auto].
  - split; [intros [_ H]; discriminate H|intros [= _ H]; contradiction].
Qed.

Lemma handles_event_after l e d :
  handles (event_after l e) d = handles e d.
Proof. destruct l; reflexivity. Qed.

Lemma trigger_fold_none ds e w :
  (forall d, In d ds -> handles e d = false) ->
  fold_left
    (fun ew d =>
       let '(e, w) := ew in
       if handles e d then
         let '(_, e', w') := run_dom_listener (snd d) e w in (e', w')
       else (e, w)) ds (e, w) = (e, w).
Proof.
  induction ds as [|d ds IH]; intros H; simpl; [reflexivity|].
  rewrite (H d (or_introl eq_refl)). apply IH.
  intros d' Hin. apply H. now right.
Qed.

Lemma trigger_fold_route ds e w :
  NoDup (map binding ds) ->
  ((forall l, ~ In (type e, matched e, l) ds) /\
   fold_left
     (fun ew d =>
        let '(e, w) := ew in
        if handles e d then
          let '(_, e', w') := run_dom_listener (snd d) e w in (e', w')
        else (e, w)) ds (e, w) = (e, w)) \/
  (exists l, In (type e, matched e, l) ds /\
   fold_left
     (fun ew d =>
        let '(e, w) := ew in
        if handles e d then
          let '(_, e', w') := run_dom_listener (snd d) e w in (e', w')
        else (e, w)) ds (e, w) =
   (event_after l e, snd (run_dom_listener l e w))).
Proof.
  induction ds as [|d ds IH]; intros Hnd; simpl.
  - left. split; [intros l []|reflexivity].
  - inversion Hnd as [|b bs Hnot Hnd']; subst.
    destruct (handles e d) eqn:Hd.
    + right. destruct d as [[ty s] l].
      pose proof (proj1 (handles_binding e _) Hd) as Hb.
      unfold binding in Hb. simpl in Hb. injection Hb as -> ->.
      exists l. split; [now left|].
      pose proof (run_dom_listener_event l e w) as He. simpl.
      destruct (run_dom_listener l e w) as [[u e'] w']. simpl in He.
      subst e'. simpl. apply trigger_fold_none.
      intros d' Hin. rewrite handles_event_after.
      destruct (handles e d') eqn:Hd'; [|reflexivity].
      apply handles_binding in Hd'. exfalso. apply Hnot.
      unfold binding at 2. simpl. rewrite <- Hd'. now apply in_map.
    + destruct (IH Hnd') as [[Hno Hf]|[l [Hin Hf]]].
      * left. split; [|exact Hf].
        intros l [->|Hin]; [|exact (Hno l Hin)].
        assert (Ht : handles e (type e, matched e, l) = true)
          by now apply handles_binding.
        congruence.
      * right. exists l. split; [now right|exact Hf].
Qed.

Lemma created_bindings_NoDup (d : dom) :
  NoDup (map binding (container_listeners (created d))).
Proof.
  rewrite created_container_listeners. simpl.
  repeat (constructor;
          [intros H; simpl in H;
           repeat (destruct H as [H|H]; [discriminate H|]); exact H|]).
  constructor.
Qed.

Lemma trigger_route w e :
  wired w ->
  ((forall l, ~ In (type e, matched e, l) (container_listeners w)) /\
   trigger e w = (e, w)) \/
  (exists l, In (type e, matched e, l) (container_listeners w) /\
   trigger e w = (event_after l e, snd (run_dom_listener l e w))).
Proof.
  intros [Hc _]. unfold trigger. apply trigger_fold_route.
  rewrite Hc. apply created_bindings_NoDup.
Qed.


(** The only listener that changes its event is the [mousedown] one on a
    found cart rule, which prevents the default action; every other DOM
    event comes out of the container as it went in. *)
Theorem trigger_event w e :
  wired w ->
  fst (trigger e w) =
  if String.eqb (type e) "mousedown"
     && (if createOrderMap.selector_eq_dec (matched e)
              createOrderMap.foundCartRuleListItem then true else false)
  then preventDefault e else e.
Proof.
  intros Hw. destruct (trigger_route w e Hw) as [[Hno ->]|[l [Hin ->]]].
  - simpl. destruct (_ && _) eqn:E; [|reflexivity].
    apply andb_true_iff in E. destruct E as [Et Em].
    apply String.eqb_eq in Et.
    destruct (createOrderMap.selector_eq_dec (matched e) _) as [Es|];
      [|discriminate Em].
    exfalso. apply (Hno mousedown_foundCartRuleListItem).
    rewrite (proj1 Hw), created_container_listeners, Et, Es.
    simpl. tauto.
  - rewrite (proj1 Hw), created_container_listeners in Hin. simpl in Hin.
    repeat (destruct Hin as [[= <- <- <-]|Hin]; [reflexivity|]).
    destruct Hin.
Qed.

End Routing.


Lemma trigger_event_example :
  let w := created (env := sample_environment) sample_page in
  let e := {| type := "mousedown";
              matched := createOrderMap.foundCartRuleListItem;
              currentTarget := 3%nat; defaultPrevented := false |} in
  fst (trigger e w) = preventDefault e.
Proof.
  intros w e. apply (trigger_event w e). apply created_wired.
Defined.

(** ** Runs of the page *)

Section RunFacts.
Context {env : Environment}.

(** Every event name has one subscription, and a publication runs that
    listener once, on the published payload. *)
Theorem one_subscription_per_name w n (p : payload_of n) :
  wired w ->
  subscribed n w = [existT _ n (subscriber n)] /\
  emit n p w = (p, snd (run_bus_listener (subscriber n) p w)).
Proof.
  intros Hw. split.
  - unfold subscribed. rewrite (proj2 Hw), created_bus_listeners.
    destruct n; reflexivity.
  - rewrite (emit_wired _ _ _ Hw).
    pose proof (reads_run_bus_listener n (subscriber n) p w) as Hr.
    destruct (run_bus_listener (subscriber n) p w) as [[u p'] w'].
    simpl in Hr. now subst p'.
Qed.

Lemma act_settled w a :
  wired w /\ one_timer w -> wired (act w a) /\ one_timer (act w a).
Proof.
  intros Hs. destruct a as [e|n p|t|el text]; simpl.
  - now apply settled_trigger.
  - now apply settled_emit.
  - now apply settled_advance.
  - revert Hs. apply settled_same; reflexivity.
Qed.

Lemma run_settled actions w :
  wired w /\ one_timer w ->
  wired (run actions w) /\ one_timer (run actions w).
Proof.
  revert w. induction actions as [|a actions IH]; intros w Hs; simpl.
  - exact Hs.
  - apply IH, act_settled, Hs.
Qed.

(** A property of [this] that no DOM listener assigns survives every
    DOM event, whatever is bound on the container. *)
Lemma trigger_this name e w :
  (forall l e w, this (snd (run_dom_listener l e w)) name = this w name) ->
  this (snd (trigger e w)) name = this w name.
Proof.
  intros Hl. unfold trigger. generalize (container_listeners w) as ds.
  intros ds. revert e w. induction ds as [|d ds IH]; intros e w; simpl.
  - reflexivity.
  - destruct (handles e d); [|apply IH].
    specialize (Hl (snd d) e w).
    destruct (run_dom_listener (snd d) e w) as [[u e'] w']. simpl in Hl.
    now rewrite IH.
Qed.

Lemma run_closure_this c w name :
  this (snd (run_closure c tt w)) name = this w name.
Proof. destruct c; reflexivity. Qed.

Lemma fire_this tm w name : this (fire tm w) name = this w name.
Proof. unfold fire. now rewrite run_closure_this. Qed.

Lemma advance_this t w name : this (advance t w) name = this w name.
Proof.
  unfold advance. simpl. generalize (length (timers w)) as fuel.
  intros fuel. revert w. induction fuel as [|fuel IH]; intros w; simpl.
  - reflexivity.
  - destruct (next_due t (timers w)); [|reflexivity].
    now rewrite IH, fire_this.
Qed.

Lemma act_cartId w a :
  wired w ->
  this (act w a) "cartId" =
  match a with
  | Publish eventMap.cartLoaded c => cartId c
  | _ => this w "cartId"
  end.
Proof.
  intros Hw. destruct a as [e|n p|t|el text]; simpl.
  - apply trigger_this. intros l e' w'. destruct l; reflexivity.
  - rewrite (emit_wired_world _ _ _ Hw). destruct n; try reflexivity.
    apply (on_cartLoaded_world p w).
  - apply advance_this.
  - reflexivity.
Qed.

Lemma run_cartId actions w :
  wired w -> one_timer w ->
  this (run actions w) "cartId" =
  match last_cartLoaded actions with
  | Some c => cartId c
  | None => this w "cartId"
  end.
Proof.
  revert w. induction actions as [|a actions IH]; intros w Hw H1; simpl.
  - reflexivity.
  - destruct (act_settled w a (conj Hw H1)) as [Hw' H1'].
    rewrite (IH _ Hw' H1'), (act_cartId w a Hw).
    destruct (last_cartLoaded actions); [reflexivity|].
    destruct a as [e|n p|t|el text]; try reflexivity.
    destruct n; reflexivity.
Qed.

(** [this.cartId] is the cart id of the latest [cartLoaded] publication,
    whatever else happened since; with no such publication it is what it
    was. *)
Theorem cartId_tracks_cartLoaded actions w :
  wired w -> one_timer w ->
  this (run actions w) "cartId" =
  match last_cartLoaded actions with
  | Some c => cartId c
  | None => this w "cartId"
  end.
Proof. exact (run_cartId actions w). Qed.

Lemma trigger_customerId e w :
  wired w ->
  this (snd (trigger e w)) "customerId" =
  if chooses_customer (Dom e) then selectCustomer_result e (page w)
  else this w "customerId".
Proof.
  intros Hw. unfold chooses_customer.
  destruct (trigger_route w e Hw) as [[Hno ->]|[l [Hin ->]]].
  - simpl. destruct (_ && _) eqn:E; [|reflexivity].
    apply andb_true_iff in E. destruct E as [Et Em].
    apply String.eqb_eq in Et.
    destruct (createOrderMap.selector_eq_dec (matched e) _) as [Es|];
      [|discriminate Em].
    exfalso. apply (Hno click_chooseCustomerBtn).
    rewrite (proj1 Hw), created_container_listeners, Et, Es.
    simpl. tauto.
  - rewrite (proj1 Hw), created_container_listeners in Hin. simpl in Hin.
    repeat (destruct Hin as [[= <- <- <-]|Hin]; [reflexivity|]).
    destruct Hin.
Qed.

Lemma act_customerId w a :
  wired w -> chooses_customer a = false ->
  this (act w a) "customerId" = this w "customerId".
Proof.
  intros Hw Hc. destruct a as [e|n p|t|el text]; simpl.
  - rewrite (trigger_customerId e w Hw). now rewrite Hc.
  - rewrite (emit_wired_world _ _ _ Hw). destruct n; try reflexivity.
    unfold subscriber.
    assert (E : this (snd (run_bus_listener on_cartLoaded p w)) "customerId"
                = this w "customerId"); [|exact E].
    destruct (negb (is_empty (addresses p)) &&
              negb (validateSelectedAddresses (addresses p))) eqn:E;
      lazy -[validateSelectedAddresses is_empty negb andb addresses];
      rewrite E; reflexivity.
  - apply advance_this.
  - reflexivity.
Qed.

(** [this.customerId] is assigned by a click on the choose-customer
    button only, which stores what [selectCustomer] returned for that
    click; nothing else that happens on the page changes it. *)
Theorem customerId_set_by_choose_only w :
  wired w -> one_timer w ->
  (forall e, chooses_customer (Dom e) = true ->
     this (snd (trigger e w)) "customerId" =
       selectCustomer_result e (page w)) /\
  (forall actions,
     forallb (fun a => negb (chooses_customer a)) actions = true ->
     this (run actions w) "customerId" = this w "customerId").
Proof.
  intros Hw H1. split.
  - intros e He. rewrite (trigger_customerId e w Hw). now rewrite He.
  - intros actions. revert w Hw H1.
    induction actions as [|a actions IH]; intros w Hw H1 Hall; simpl.
    + reflexivity.
    + simpl in Hall. apply andb_true_iff in Hall. destruct Hall as [Ha Hr].
      apply negb_true_iff in Ha.
      destruct (act_settled w a (conj Hw H1)) as [Hw' H1'].
      now rewrite (IH _ Hw' H1' Hr), (act_customerId w a Hw Ha).
Qed.

Lemma act_timers w a :
  wired w -> touches_timer a = false ->
  timers (act w a) = timers w /\
  this (act w a) "timeoutId" = this w "timeoutId".
Proof.
  intros Hw Ht. destruct a as [e|n p|t|el text]; simpl.
  - destruct (trigger_route w e Hw) as [[_ ->]|[l [Hin ->]]];
      [split; reflexivity|].
    rewrite (proj1 Hw), created_container_listeners in Hin.
    simpl in Hin, Ht.
    repeat (destruct Hin as [[= He _ <-]|Hin];
            [first [ split; reflexivity
                   | rewrite <- He in Ht; discriminate Ht ]|]).
    destruct Hin.
  - rewrite (emit_wired_world _ _ _ Hw). destruct n;
      try (split; reflexivity).
    destruct (on_cartLoaded_world p w) as [_ [H _]]. exact H.
  - discriminate Ht.
  - split; reflexivity.
Qed.

(** Only [input] events and the passing of time touch the debounce
    timer: through clicks, changes, blurs, publications on the bus and
    typing that fires nothing, what is pending stays pending and
    [this.timeoutId] keeps its handle. *)
Theorem pending_search_survives actions w :
  wired w -> one_timer w ->
  forallb (fun a => negb (touches_timer a)) actions = true ->
  timers (run actions w) = timers w /\
  this (run actions w) "timeoutId" = this w "timeoutId".
Proof.
  revert w. induction actions as [|a actions IH]; intros w Hw H1 Hall; simpl.
  - split; reflexivity.
  - simpl in Hall. apply andb_true_iff in Hall. destruct Hall as [Ha Hr].
    apply negb_true_iff in Ha.
    destruct (act_settled w a (conj Hw H1)) as [Hw' H1'].
    destruct (IH _ Hw' H1' Hr) as [-> ->].
    exact (act_timers w a Hw Ha).
Qed.

End RunFacts.

Lemma customerId_set_by_choose_only_example :
  let w := created (env := sample_environment) sample_page in
  let e := {| type := "click"; matched := createOrderMap.chooseCustomerBtn;
              currentTarget := 9%nat; defaultPrevented := false |} in
  this (snd (trigger e w)) "customerId" = VNum 9.
Proof.
  intros w e.
  apply (proj1 (customerId_set_by_choose_only w (created_wired _)
                  (proj1 (created_idle _ 0))) e).
  reflexivity.
Defined.

Lemma pending_search_survives_example :
  let w :=
    keystroke 0 createOrderMap.productSearch 1 "a"
      (created (env := sample_environment) sample_page) in
  let e := {| type := "click"; matched := createOrderMap.addToCartButton;
              currentTarget := 4%nat; defaultPrevented := false |} in
  timers (run [Dom e; Publish eventMap.cartLoaded sample_cart] w) =
    timers w /\
  this (run [Dom e; Publish eventMap.cartLoaded sample_cart] w) "timeoutId" =
    this w "timeoutId".
Proof.
  intros w e.
  destruct (keystroke_effect
              (created (env := sample_environment) sample_page) 0
              createOrderMap.productSearch 1%nat "a"
              (productManager_search (VStr "a")) (created_wired _)
              (proj1 (created_idle _ 0)) (proj2 (created_idle _ 0))
              (Z.le_refl 0) eq_refl) as [[Hw [H1 _]] _].
  apply (pending_search_survives
           [Dom e; Publish eventMap.cartLoaded sample_cart] w Hw H1).
  reflexivity.
Defined.

Lemma one_subscription_per_name_example :
  let w := created (env := sample_environment) sample_page in
  subscribed eventMap.cartFreeShippingSet w =
    [existT _ _ on_cartFreeShippingSet] /\
  emit eventMap.cartFreeShippingSet sample_cart w =
    (sample_cart, snd (run_bus_listener on_cartFreeShippingSet sample_cart w)).
Proof.
  intros w.
  apply (one_subscription_per_name w eventMap.cartFreeShippingSet sample_cart).
  apply created_wired.
Defined.

Lemma cartId_tracks_cartLoaded_example :
  let w := created (env := sample_environment) sample_page in
  let e := {| type := "change"; matched := createOrderMap.addressSelect;
              currentTarget := 4%nat; defaultPrevented := false |} in
  this (run [Publish eventMap.cartLoaded sample_cart; Dom e; Wait 10] w)
       "cartId" = VNum 12.
Proof.
  intros w e.
  apply (cartId_tracks_cartLoaded
           [Publish eventMap.cartLoaded sample_cart; Dom e; Wait 10] w).
  - apply created_wired.
  - apply (proj1 (created_idle _ 0)).
Defined.

(** ** Timers and time *)

Section TimerFacts.
Context {env : Environment}.

Lemma earliest_min ts tm :
  earliest ts = Some tm -> forall x, In x ts -> (due tm <= due x)%Z.
Proof.
  revert tm. induction ts as [|y ts IH]; simpl; [discriminate|].
  intros tm E x Hin. destruct (earliest ts) as [tm'|] eqn:E'.
  - specialize (IH tm' eq_refl).
    destruct (Z.ltb_spec (due tm') (due y)); injection E as <-;
      destruct Hin as [<-|Hin]; try lia.
    + now apply IH.
    + specialize (IH x Hin). lia.
  - injection E as <-. destruct ts as [|z ts].
    + destruct Hin as [<-|[]]. lia.
    + simpl in E'. destruct (earliest ts) as [u|];
        [destruct (due u <? due z)%Z|]; discriminate E'.
Qed.

Lemma next_due_None t ts :
  next_due t ts = None -> forall x, In x ts -> (t < due x)%Z.
Proof.
  unfold next_due. intros E x Hin.
  destruct (earliest ts) as [tm|] eqn:E'.
  - pose proof (earliest_min ts tm E' x Hin).
    destruct (Z.leb_spec (due tm) t); [discriminate E|lia].
  - destruct ts as [|y ts]; [destruct Hin|].
    simpl in E'. destruct (earliest ts) as [u|];
      [destruct (due u <? due y)%Z|]; discriminate E'.
Qed.

Lemma next_due_Some t ts tm :
  next_due t ts = Some tm -> In tm ts /\ (due tm <= t)%Z.
Proof.
  unfold next_due. destruct (earliest ts) as [tm'|] eqn:E; [|discriminate].
  destruct (Z.leb_spec (due tm') t); [|discriminate].
  intros [= <-]. split; [now apply earliest_In|assumption].
Qed.

Lemma fire_timers tm w :
  timers (fire tm w) =
  filter (fun x => negb (timer_id x =? timer_id tm)%Z) (timers w).
Proof. unfold fire. destruct (callback tm); reflexivity. Qed.

Lemma fire_now tm w : now (fire tm w) = Z.max (now w) (due tm).
Proof. unfold fire. destruct (callback tm); reflexivity. Qed.

Lemma filter_length_lt {A} (f : A -> bool) l x :
  In x l -> f x = false -> (length (filter f l) < length l)%nat.
Proof.
  induction l as [|y l IH]; simpl; [intros []|].
  intros [->|Hin] Hf.
  - rewrite Hf. pose proof (filter_length_le f l). lia.
  - specialize (IH Hin Hf). destruct (f y); simpl; lia.
Qed.

Lemma run_timers_complete fuel t w :
  (length (timers w) <= fuel)%nat ->
  (forall x, In x (timers (run_timers fuel t w)) ->
     In x (timers w) /\ (t < due x)%Z) /\
  (now w <= now (run_timers fuel t w) <= Z.max (now w) t)%Z.
Proof.
  revert w. induction fuel as [|fuel IH]; intros w Hlen; simpl.
  - split; [|lia]. intros x Hin.
    destruct (timers w); [destruct Hin|simpl in Hlen; lia].
  - destruct (next_due t (timers w)) as [tm|] eqn:E.
    + destruct (next_due_Some _ _ _ E) as [Hin Hdue].
      assert (Hlt : (length (timers (fire tm w)) <= fuel)%nat).
      { rewrite fire_timers.
        pose proof (filter_length_lt
                      (fun x => negb (timer_id x =? timer_id tm)%Z)
                      (timers w) tm Hin) as Hl.
        cbv beta in Hl. rewrite Z.eqb_refl in Hl.
        specialize (Hl eq_refl). lia. }
      destruct (IH (fire tm w) Hlt) as [Hts Hnow]. split.
      * intros x Hx. destruct (Hts x Hx) as [Hx' Hd]. split; [|exact Hd].
        rewrite fire_timers in Hx'. now apply filter_In in Hx'.
      * rewrite fire_now in Hnow. lia.
    + split; [|lia]. intros x Hin. split; [exact Hin|].
      exact (next_due_None _ _ E x Hin).
Qed.

Lemma advance_later t w :
  (forall x, In x (timers (advance t w)) ->
     In x (timers w) /\ (t < due x)%Z) /\
  now (advance t w) = Z.max (now w) t.
Proof.
  destruct (run_timers_complete (length (timers w)) t w (le_n _))
    as [Hts Hnow].
  unfold advance. simpl. split; [exact Hts|lia].
Qed.


(** What one pending timer sends when its time has come. *)
Lemma advance_single w tm T :
  timers w = [tm] -> (due tm <= T)%Z -> (now w <= due tm)%Z ->
  timers (advance T w) = [] /\
  calls (advance T w) =
  (due tm,
   match callback tm with
   | customer_search_later event =>
       customerManager_search (elem_val (currentTarget event) (page w))
   | cartRule_search_later searchPhrase =>
       cartRuleManager_search searchPhrase
   | product_search_later searchPhrase =>
       productManager_search searchPhrase
   end) :: calls w.
Proof.
  intros Hts HT Hnow. unfold advance. rewrite Hts.
  simpl length. unfold run_timers. rewrite Hts. unfold next_due.
  simpl earliest. cbv beta iota.
  rewrite (proj2 (Z.leb_le (due tm) T) HT).
  unfold fire. rewrite Hts.
  destruct (callback tm); simpl; rewrite Z.eqb_refl, Z.max_r by exact Hnow;
    split; reflexivity.
Qed.

(** The customer search reads its input when the timer runs, the
    product and cart-rule searches when the key is struck: if the page
    changes in between, by anything that fires no [input] event, the
    customer search sends what the input holds then, the other two what
    was typed. *)
Theorem search_phrase_read_time w t s el text d' T :
  wired w -> one_timer w -> pending_after t w -> (now w <= t)%Z ->
  search_call s (VStr text) <> None -> (t + 300 <= T)%Z ->
  let w' := with_page d' (keystroke t s el text w) in
  calls (advance T w') =
  ((t + 300)%Z,
   match s with
   | createOrderMap.productSearch => productManager_search (VStr text)
   | createOrderMap.cartRuleSearchInput => cartRuleManager_search (VStr text)
   | _ => customerManager_search (elem_val el d')
   end) :: calls w.
Proof.
  intros Hw H1 Hp Hnow Hs HT w'. subst w'.
  destruct (search_call s (VStr text)) as [c|] eqn:Hc; [|contradiction].
  rewrite (keystroke_world w t s el text c Hw Hp Hc).
  rewrite (cleared_one_timer w H1), Z.max_r by exact Hnow.
  match goal with
  | |- calls (advance T ?W) = _ =>
      match eval simpl in (timers W) with
      | [?tm] =>
          destruct (advance_single W tm T eq_refl) as [_ E];
          [simpl; lia|simpl; lia|rewrite E]
      end
  end.
  destruct s; try discriminate Hc; simpl;
    rewrite ?elem_val_user_types; reflexivity.
Qed.

End TimerFacts.

Lemma search_phrase_read_time_example :
  let w := created (env := sample_environment) sample_page in
  let d' := user_types 1%nat "later" sample_page in
  calls (advance 300
           (with_page d'
              (keystroke 0 createOrderMap.customerSearchInput 1 "typed" w))) =
  (300%Z, customerManager_search (VStr "later")) :: calls w.
Proof.
  intros w d'.
  apply (search_phrase_read_time w 0 createOrderMap.customerSearchInput
           1%nat "typed" d' 300).
  - apply created_wired.
  - apply (proj1 (created_idle _ 0)).
  - apply (proj2 (created_idle _ 0)).
  - apply Z.le_refl.
  - discriminate.
  - discriminate.
Defined.

(** ** Bursts and pauses *)

Section Bursts.
Context {env : Environment}.

Lemma cleared_nil h : cleared h [] = [].
Proof. destruct h; reflexivity. Qed.

(** A keystroke on a settled page, whatever was pending: what was due by
    then has run, and the only dispatch still to come is its own. *)
Lemma keystroke_general w t s el text c :
  wired w -> one_timer w -> (now w <= t)%Z ->
  search_call s (VStr text) = Some c ->
  let w' := keystroke t s el text w in
  (wired w' /\ one_timer w' /\ pending_after (t + 299) w') /\
  (now w' = t /\ calls w' = calls (advance t w)) /\
  forall T, (t + 300 <= T)%Z ->
    calls (advance T w') = ((t + 300)%Z, c) :: calls (advance t w) /\
    timers (advance T w') = [].
Proof.
  intros Hw H1 Hnow Hc w'.
  destruct (settled_advance t w (conj Hw H1)) as [Hwa H1a].
  destruct (advance_later t w) as [Hpa Hna].
  rewrite Z.max_r in Hna by exact Hnow.
  assert (Hp : pending_after t (advance t w)).
  { intros x Hx. apply (Hpa x Hx). }
  subst w'. unfold keystroke. cbv zeta.
  remember (advance t w) as wa eqn:Ewa.
  assert (Hwz : wired (with_page (user_types el text (page wa)) wa)).
  { apply (settled_same wa); try reflexivity. now split. }
  rewrite (trigger_search _ {| type := "input"; matched := s;
                              currentTarget := el;
                              defaultPrevented := false |}
             s text c Hwz eq_refl eq_refl Hc).
  cbn [this timers now page calls next_timer assigned with_page
       container_listeners bus_listeners next_ref].
  rewrite (cleared_one_timer _ H1a), Hna.
  split; [|split].
  - split; [exact Hwa|]. split.
    + intros tm [<-|[]]. split; reflexivity.
    + intros tm [<-|[]]. cbn. lia.
  - split; reflexivity.
  - intros T HT.
    match goal with
    | |- calls (advance T ?W) = _ /\ _ =>
        match eval simpl in (timers W) with
        | [?tm] =>
            apply (advance_due_search W tm T s el text c false eq_refl)
        end
    end; simpl; try reflexivity; try assumption; try lia.
    apply elem_val_user_types.
Qed.

(** Two keystrokes more than the delay apart both get their search: the
    first is sent before the second key is struck, the second 300 after
    it. *)
Theorem spaced_keystrokes_both_dispatch w t s el text c t' s' el' text' c' T :
  wired w -> one_timer w -> pending_after t w -> (now w <= t)%Z ->
  search_call s (VStr text) = Some c ->
  search_call s' (VStr text') = Some c' ->
  (t + 300 < t')%Z -> (t' + 300 <= T)%Z ->
  let w' := keystroke t' s' el' text' (keystroke t s el text w) in
  calls (advance T w') =
    ((t' + 300)%Z, c') :: ((t + 300)%Z, c) :: calls w /\
  timers (advance T w') = [].
Proof.
  intros Hw H1 Hp Hnow Hc Hc' Ht HT w'.
  destruct (keystroke_effect w t s el text c Hw H1 Hp Hnow Hc)
    as [[Hw1 [H11 _]] [[Hn1 _] Hfire]].
  destruct (Hfire t' ltac:(lia)) as [Hcalls _].
  assert (Hn1' : (now (keystroke t s el text w) <= t')%Z)
    by (rewrite Hn1; lia).
  destruct (keystroke_general _ t' s' el' text' c' Hw1 H11 Hn1' Hc')
    as [_ [_ Hfire']].
  subst w'. rewrite <- Hcalls. apply Hfire'. exact HT.
Qed.

(** A burst of keystrokes on the search inputs, each less than 300 after
    the one before, in any mix of the three inputs: only the last one
    gets its search, 300 after it was struck. *)
Theorem burst_last_keystroke_wins ks k w t c T :
  wired w -> one_timer w -> (now w <= t)%Z -> pending_after (t + 299) w ->
  burst t (ks ++ [k]) ->
  search_call (on k) (VStr (typed k)) = Some c ->
  (at_ k + 300 <= T)%Z ->
  let w' := strikes (ks ++ [k]) w in
  calls (advance T w') = ((at_ k + 300)%Z, c) :: calls w /\
  timers (advance T w') = [].
Proof.
  revert w t. induction ks as [|k0 ks IH];
    intros w t Hw H1 Hnow Hp Hb Hc HT w'; subst w'.
  - simpl in Hb |- *. destruct Hb as [Hk _]. unfold strike.
    apply (keystroke_effect w (at_ k) (on k) (node k) (typed k) c);
      try assumption; try lia.
    intros tm Hin. apply Hp in Hin. lia.
  - simpl in Hb. destruct Hb as [Hk0 [Hs0 Hb]].
    destruct (search_call (on k0) (VStr (typed k0))) as [c0|] eqn:Hc0;
      [|contradiction].
    assert (Hp0 : pending_after (at_ k0) w).
    { intros tm Hin. apply Hp in Hin. lia. }
    destruct (keystroke_effect w (at_ k0) (on k0) (node k0) (typed k0) c0
                Hw H1 Hp0 ltac:(lia) Hc0)
      as [[Hw1 [H11 Hp1]] [[Hn1 Hc1] _]].
    change (strikes ((k0 :: ks) ++ [k]) w)
      with (strikes (ks ++ [k]) (strike w k0)).
    rewrite <- Hc1.
    apply (IH (strike w k0) (at_ k0)); try assumption.
    unfold strike. rewrite Hn1. lia.
Qed.

End Bursts.

Lemma spaced_keystrokes_both_dispatch_example :
  let w := created (env := sample_environment) sample_page in
  let w' :=
    keystroke 400 createOrderMap.cartRuleSearchInput 2 "b"
      (keystroke 0 createOrderMap.productSearch 1 "a" w) in
  calls (advance 700 w') =
    (700%Z, cartRuleManager_search (VStr "b"))
    :: (300%Z, productManager_search (VStr "a")) :: calls w /\
  timers (advance 700 w') = [].
Proof.
  intros w.
  apply (spaced_keystrokes_both_dispatch w 0 createOrderMap.productSearch
           1%nat "a" (productManager_search (VStr "a")) 400
           createOrderMap.cartRuleSearchInput 2%nat "b"
           (cartRuleManager_search (VStr "b")) 700).
  - apply created_wired.
  - apply (proj1 (created_idle _ 0)).
  - apply (proj2 (created_idle _ 0)).
  - apply Z.le_refl.
  - reflexivity.
  - reflexivity.
  - reflexivity.
  - discriminate.
Defined.

Lemma burst_last_keystroke_wins_example :
  let w := created (env := sample_environment) sample_page in
  let ks :=
    [ {| at_ := 0; on := createOrderMap.customerSearchInput;
         node := 1%nat; typed := "j" |};
      {| at_ := 120; on := createOrderMap.productSearch;
         node := 2%nat; typed := "sh" |};
      {| at_ := 400; on := createOrderMap.productSearch;
         node := 2%nat; typed := "shoe" |} ] in
  let k := {| at_ := 650; on := createOrderMap.cartRuleSearchInput;
              node := 3%nat; typed := "X10" |} in
  calls (advance 950 (strikes (ks ++ [k]) w)) =
    (950%Z, cartRuleManager_search (VStr "X10")) :: calls w /\
  timers (advance 950 (strikes (ks ++ [k]) w)) = [].
Proof.
  intros w ks k.
  apply (burst_last_keystroke_wins ks k w 0
           (cartRuleManager_search (VStr "X10")) 950).
  - apply created_wired.
  - apply (proj1 (created_idle _ 0)).
  - apply Z.le_refl.
  - apply (proj2 (created_idle _ (0 + 299))).
  - simpl. repeat split; try discriminate.
  - reflexivity.
  - discriminate.
Defined.

(** ** The call log *)

Section LogFacts.
Context {env : Environment}.

Lemma at_time_app t cs cs' :
  at_time t (cs ++ cs') = at_time t cs' ++ at_time t cs.
Proof. unfold at_time. now rewrite map_app, rev_app_distr. Qed.

Lemma logged_refl Q w : logged Q w w.
Proof. split; [reflexivity|]. exists []. split; reflexivity. Qed.

Lemma logged_trans Q w1 w2 w3 :
  logged Q w1 w2 -> logged Q w2 w3 -> logged Q w1 w3.
Proof.
  intros [N1 [cs1 [E1 Q1]]] [N2 [cs2 [E2 Q2]]]. split; [congruence|].
  exists (cs1 ++ cs2). split.
  - now rewrite E2, E1, N1, at_time_app, app_assoc.
  - rewrite forallb_app. now rewrite Q1, Q2.
Qed.

Lemma logged_weaken (Q Q' : call -> bool) w w' :
  (forall c, Q c = true -> Q' c = true) -> logged Q w w' -> logged Q' w w'.
Proof.
  intros H [N [cs [E HQ]]]. split; [exact N|]. exists cs. split; [exact E|].
  rewrite forallb_forall in *. auto.
Qed.

Lemma logs_quiet {P A} Q (m : M P A) :
  (forall p w, now (snd (m p w)) = now w) ->
  (forall p w, calls (snd (m p w)) = calls w) ->
  logs Q m.
Proof.
  intros Hn Hc p w. split; [apply Hn|]. exists []. split; [apply Hc|].
  reflexivity.
Qed.

Lemma logs_bind {P A B} Q (m : M P A) (k : A -> M P B) :
  logs Q m -> (forall a, logs Q (k a)) -> logs Q (bind m k).
Proof.
  intros Hm Hk p w. unfold bind. specialize (Hm p w).
  destruct (m p w) as [[a p'] w']. simpl in Hm.
  apply (logged_trans _ _ w'); [exact Hm|apply Hk].
Qed.

Lemma logs_if {P A} Q (b : bool) (m m' : M P A) :
  logs Q m -> logs Q m' -> logs Q (if b then m else m').
Proof. now destruct b. Qed.

Lemma logs_invoke {P} (Q : call -> bool) c :
  Q c = true -> logs (P := P) Q (invoke c).
Proof.
  intros HQ p w. split; [reflexivity|]. exists [c]. split; [reflexivity|].
  simpl. now rewrite HQ.
Qed.

Ltac hush := apply logs_quiet; intros; reflexivity.

Lemma logs_ret {P A} Q (a : A) : logs (P := P) Q (ret a).
Proof. hush. Qed.
Lemma logs_gets {P A} Q (f : world -> A) : logs (P := P) Q (gets f).
Proof. hush. Qed.
Lemma logs_prop {P A} Q (f : P -> A) : logs Q (prop f).
Proof. hush. Qed.
Lemma logs_arg {P} Q : logs (P := P) Q arg.
Proof. hush. Qed.
Lemma logs_set_arg {P} Q (p : P) : logs Q (set_arg p).
Proof. hush. Qed.
Lemma logs_set_this {P} Q name v : logs (P := P) Q (set_this name v).
Proof. hush. Qed.
Lemma logs_setTimeout {P} Q c d : logs (P := P) Q (setTimeout c d).
Proof. hush. Qed.
Lemma logs_clearTimeout {P} Q h : logs (P := P) Q (clearTimeout h).
Proof. hush. Qed.
Lemma logs_set_val {P} Q s v : logs (P := P) Q (set_val s v).
Proof. hush. Qed.
Lemma logs_removeClass {P} Q s c : logs (P := P) Q (removeClass s c).
Proof. hush. Qed.
Lemma logs_blur {P} Q s : logs (P := P) Q (blur s).
Proof. hush. Qed.

#[local] Hint Resolve logs_ret logs_gets logs_prop logs_arg logs_set_arg
  logs_set_this logs_setTimeout logs_clearTimeout logs_set_val
  logs_removeClass logs_blur logs_if : frames.

Ltac step_logs :=
  repeat (apply logs_bind; [|intros ?]);
  auto with frames;
  try (apply logs_invoke; reflexivity).

Lemma logs_run_dom_listener l : logs not_render (run_dom_listener l).
Proof.
  destruct l;
    cbv [run_dom_listener _initCustomerSearch _initCustomerSelect
         _initCartSelect _initDuplicateOrderCart _initCartRuleSearch
         _initProductSearch _initProductRemoveFromCart
         _initProductChangePrice _initProductChangeQty edit_cart
         _changeCartAddresses listed_product
         get_this target_val target_data val_of];
    step_logs.
Qed.

Lemma logs_run_closure c : logs not_render (run_closure c).
Proof. destruct c; cbv [run_closure target_val]; step_logs. Qed.

Lemma logs_run_bus_listener n (l : bus_listener n) :
  n <> eventMap.cartLoaded -> logs is_render (run_bus_listener l).
Proof.
  intros Hn. destruct l; try contradiction;
    cbv [run_bus_listener _preselectCartCurrency _preselectCartLanguage];
    step_logs.
Qed.

Lemma logs_changeCartAddresses {P} :
  logs (P := P) (fun _ => true) _changeCartAddresses.
Proof. cbv [_changeCartAddresses get_this val_of]. step_logs. Qed.

Lemma logs_on_cartLoaded :
  logs (fun _ => true) (run_bus_listener on_cartLoaded).
Proof.
  cbv [run_bus_listener _renderCartInfo
       _preselectCartCurrency _preselectCartLanguage get_this].
  step_logs. apply logs_if; [apply logs_changeCartAddresses|apply logs_ret].
Qed.

Lemma logged_trigger e w : logged not_render w (snd (trigger e w)).
Proof.
  unfold trigger. generalize (container_listeners w) as ds.
  intros ds. revert e w. induction ds as [|d ds IH]; intros e w; simpl.
  - apply logged_refl.
  - destruct (handles e d); [|apply IH].
    pose proof (logs_run_dom_listener (snd d) e w) as Hk.
    destruct (run_dom_listener (snd d) e w) as [[u e'] w']. simpl in Hk.
    apply (logged_trans _ _ w'); [exact Hk|apply IH].
Qed.

Lemma logged_emit Q n (p : payload_of n) w :
  (forall l : bus_listener n, logs Q (run_bus_listener l)) ->
  logged Q w (snd (emit n p w)).
Proof.
  intros Hl. unfold emit. generalize (bus_listeners w) as subs.
  intros subs. revert p w.
  induction subs as [|[n' l] subs IH]; intros p w; simpl.
  - apply logged_refl.
  - destruct (eventMap.name_eq_dec n' n) as [e|_]; [|apply IH].
    destruct e; simpl.
    pose proof (Hl l p w) as Hk.
    destruct (run_bus_listener l p w) as [[u p'] w']. simpl in Hk.
    apply (logged_trans _ _ w'); [exact Hk|apply IH].
Qed.

(** Rendering happens on bus events only. Whatever is bound or
    subscribed, a DOM event and a timer log no renderer call, and a
    publication under any name but [cartLoaded] logs renderer calls
    only; each logs at the current time and leaves the clock alone. *)
Theorem renders_on_bus_events_only :
  (forall e w, logged not_render w (snd (trigger e w))) /\
  (forall c w, logged not_render w (snd (run_closure c tt w))) /\
  (forall n (p : payload_of n) w,
     n <> eventMap.cartLoaded -> logged is_render w (snd (emit n p w))).
Proof.
  split; [|split].
  - apply logged_trigger.
  - intros c w. apply logs_run_closure.
  - intros n p w Hn. apply logged_emit.
    intros l. now apply logs_run_bus_listener.
Qed.

Lemma ordered_le t t' log : (t <= t')%Z -> ordered t log -> ordered t' log.
Proof.
  destruct log as [|[t0 c] log]; simpl; [trivial|].
  intros Hle [H0 Hr]. split; [lia|exact Hr].
Qed.

Lemma ordered_at_time t cs log :
  ordered t log -> ordered t (at_time t cs ++ log).
Proof.
  intros Ho. unfold at_time. rewrite <- (rev_involutive cs) at 1.
  rewrite map_rev, rev_involutive.
  induction (rev cs) as [|c l IH]; simpl; [exact Ho|].
  split; [lia|exact IH].
Qed.

Lemma ordered_logged Q w w' :
  logged Q w w' -> ordered (now w) (calls w) -> ordered (now w') (calls w').
Proof.
  intros [N [cs [E _]]] Ho. rewrite N, E. now apply ordered_at_time.
Qed.

Lemma ordered_fire tm w :
  ordered (now w) (calls w) -> ordered (now (fire tm w)) (calls (fire tm w)).
Proof.
  intros Ho. unfold fire.
  apply (ordered_logged _ _ _ (logs_run_closure (callback tm) tt _)).
  simpl. apply (ordered_le (now w)); [lia|exact Ho].
Qed.

Lemma ordered_advance t w :
  ordered (now w) (calls w) ->
  ordered (now (advance t w)) (calls (advance t w)).
Proof.
  intros Ho. unfold advance. simpl.
  generalize (length (timers w)) as fuel. intros fuel.
  assert (H : ordered (now (run_timers fuel t w))
                      (calls (run_timers fuel t w))).
  { revert w Ho. induction fuel as [|fuel IH]; intros w Ho; simpl.
    - exact Ho.
    - destruct (next_due t (timers w)); [|exact Ho].
      apply IH, ordered_fire, Ho. }
  revert H. apply ordered_le. lia.
Qed.

Lemma created_calls (d : dom) :
  calls (created d) =
  at_time 0 (map (fun nc => construct (snd nc)) collaborators).
Proof. reflexivity. Qed.


End LogFacts.


(** ** A fresh controller *)

(** A freshly built controller holds no cart and no customer, has no
    timer handle and nothing pending, has made no call but the twelve
    constructions, in the order of the constructor, and holds twelve
    distinct collaborator objects. *)
Theorem created_state {env : Environment} (d : dom) :
  let w := created d in
  (this w "cartId" = VNull /\ this w "customerId" = VNull /\
   this w "timeoutId" = VUndefined /\ timers w = []) /\
  calls w = at_time 0 (map (fun nc => construct (snd nc)) collaborators) /\
  NoDup (this w "$container" :: map (fun nc => this w (fst nc)) collaborators).
Proof.
  split; [repeat split|]. split; [reflexivity|].
  assert (E : this (created d) "$container"
              :: map (fun nc => this (created d) (fst nc)) collaborators =
              map VRef (seq 0 13)) by reflexivity.
  rewrite E. simpl.
  repeat (constructor;
          [intros H; simpl in H;
           repeat (destruct H as [H|H]; [discriminate H|]); exact H|]).
  constructor.
Qed.

(** ** The cart a call is about *)

Section CartFacts.
Context {env : Environment}.

(** The calls at the head of a log, oldest first. *)
Ltac log_of L :=
  lazymatch L with
  | (_, ?c) :: ?rest => let cs := log_of rest in constr:(cs ++ [c])
  | _ => constr:(@nil call)
  end.

Lemma run_dom_listener_cart l e w :
  exists cs,
    calls (snd (run_dom_listener l e w)) = at_time (now w) cs ++ calls w /\
    forall x v, In x cs -> cart_of x = Some v -> v = this w "cartId".
Proof.
  destruct l;
    match goal with
    | |- exists cs, ?L = _ /\ _ =>
        let L' := eval lazy in L in
        let cs := log_of L' in exists cs
    end;
    (split; [reflexivity|];
     intros x v Hin Hx; simpl in Hin;
     repeat (destruct Hin as [<-|Hin];
             [first [discriminate Hx|injection Hx as <-; reflexivity]|]);
     destruct Hin).
Qed.

Lemma trigger_cart e w :
  wired w ->
  exists cs,
    calls (snd (trigger e w)) = at_time (now w) cs ++ calls w /\
    forall x v, In x cs -> cart_of x = Some v -> v = this w "cartId".
Proof.
  intros Hw. destruct (trigger_route w e Hw) as [[_ ->]|[l [_ ->]]].
  - exists []. split; [reflexivity|]. intros x v [].
  - apply run_dom_listener_cart.
Qed.



End CartFacts.


